(** * image-resizer: the cache-and-lock coordination protocol

    A shallow embedding of the two source files of the repository:

    - the persistence layer [Persist] (set, setnx, get, del, setLock, lock),
      a key/value store kept in a MongoDB collection, and the polling lock
      built on it;
    - the image class [Img] of [lib/image.js]: key derivation, findVersion,
      generateVersion, processVersion and save.

    JavaScript values are a small tagged union, numbers are integers ([Z]).
    Promises are modelled by their settled outcome; the Q combinators
    (catch, finally, then, done) are functions over a state monad whose
    state is the world a request can observe: the collection, the deferred
    returned to the caller, the trace of external effects and the
    exceptions that [done] rethrows.  The removal of the lock key in
    [processVersion], whose promise the source drops, is issued at the
    call and carried out by the store later.  Calls to the logger are not
    modelled. *)

From Stdlib Require Import ZArith List String Ascii Bool Lia DecimalString
  DecimalPos.
Import ListNotations.

#[local] Open Scope string_scope.
#[local] Open Scope Z_scope.

(* ================================================================== *)
(** * JavaScript values *)
(* ================================================================== *)

Module JS.

Inductive value : Type :=
| VUndefined
| VNull
| VBool (b : bool)
| VNum (n : Z)
| VStr (s : string)
| VDoc (key : string) (val : value)   (* a stored document {key, value} *)
| VResponse (statusCode : Z)          (* an HTTP response object *)
| VImg                                (* the Img instance, [_this] *)
| VError (message : value).           (* new Error(message) *)

Definition string_of_Z (z : Z) : string :=
  NilZero.string_of_int (Z.to_int z).

(** ToString, as string concatenation [+] applies it to its operands. *)
Fixpoint toString (v : value) : string :=
  match v with
  | VUndefined => "undefined"
  | VNull => "null"
  | VBool true => "true"
  | VBool false => "false"
  | VNum n => string_of_Z n
  | VStr s => s
  | VError m => "Error: " ++ toString m
  | VDoc _ _ | VResponse _ | VImg => "[object Object]"
  end.

(** ToBoolean: what [if (x)], [!x] and [x || y] test. *)
Definition truthy (v : value) : bool :=
  match v with
  | VUndefined | VNull => false
  | VBool b => b
  | VNum n => negb (n =? 0)
  | VStr s => negb (String.eqb s "")
  | _ => true
  end.

(** [v !== null] *)
Definition strict_neq_null (v : value) : bool :=
  match v with VNull => false | _ => true end.

(** Reading a property of [undefined] or [null] throws a TypeError. *)
Definition has_properties (v : value) : bool :=
  match v with VUndefined | VNull => false | _ => true end.

(** [s[0]] followed by string concatenation: the first character, or the
    text of [undefined] when the string is empty. *)
Definition index0 (s : string) : string :=
  match s with
  | String c _ => String c ""
  | EmptyString => toString VUndefined
  end.

(** [x || d] on an optional string (the empty string is falsy). *)
Definition or_string (x : option string) (d : string) : string :=
  match x with
  | Some s => if String.eqb s "" then d else s
  | None => d
  end.

(** [x || d] on an optional number (0 is falsy). *)
Definition or_num (x : option Z) (d : Z) : Z :=
  match x with
  | Some n => if n =? 0 then d else n
  | None => d
  end.

Definition lower_ascii (a : ascii) : ascii :=
  let n := nat_of_ascii a in
  if (Nat.leb 65 n && Nat.leb n 90)%bool then ascii_of_nat (n + 32) else a.

Fixpoint toLowerCase (s : string) : string :=
  match s with
  | EmptyString => EmptyString
  | String a r => String (lower_ascii a) (toLowerCase r)
  end.

(** parseInt(v, 10): skip leading white space, read an optional sign and the
    longest run of decimal digits; [None] is NaN. *)
Definition is_ws (a : ascii) : bool :=
  let n := nat_of_ascii a in
  (Nat.eqb n 9 || Nat.eqb n 10 || Nat.eqb n 11 || Nat.eqb n 12
   || Nat.eqb n 13 || Nat.eqb n 32)%bool.

Fixpoint trimStart (s : string) : string :=
  match s with
  | String a r => if is_ws a then trimStart r else s
  | EmptyString => s
  end.

Definition digit (a : ascii) : option Z :=
  let n := nat_of_ascii a in
  if (Nat.leb 48 n && Nat.leb n 57)%bool
  then Some (Z.of_nat (n - 48)) else None.

Fixpoint digits (s : string) (acc : option Z) : option Z :=
  match s with
  | String a r =>
      match digit a with
      | Some d =>
          digits r (Some (10 * match acc with Some n => n | None => 0 end + d))
      | None => acc
      end
  | EmptyString => acc
  end.

Definition parseInt10 (v : value) : option Z :=
  let s := trimStart (toString v) in
  match s with
  | String "-"%char r => option_map Z.opp (digits r None)
  | String "+"%char r => digits r None
  | _ => digits s None
  end.

(** [parseInt(v, 10) < now]; a comparison with NaN is false. *)
Definition parseInt_lt (v : value) (now : Z) : bool :=
  match parseInt10 v with
  | Some n => n <? now
  | None => false
  end.

(** The settled outcome of a promise. *)
Inductive settled : Type :=
| Fulfilled (v : value)
| Rejected (reason : value).

(** A Q deferred: pending, or settled once and for all. *)
Definition deferred : Type := option settled.

Definition resolve (v : value) (d : deferred) : deferred :=
  match d with
  | None => Some (Fulfilled v)
  | Some _ => d
  end.

Definition reject (e : value) (d : deferred) : deferred :=
  match d with
  | None => Some (Rejected e)
  | Some _ => d
  end.

Definition is_settled (d : deferred) : bool :=
  match d with Some _ => true | None => false end.

End JS.

Import JS.

(* ================================================================== *)
(** * The persistence layer *)
(* ================================================================== *)

Module Persist.

Record config : Type := { interval : option Z; waitTimeout : option Z }.

(** [_interval] and [_waitTimeout] are initialised when the module is
    loaded, where [_config] is still the empty object; the constructor
    assigns [_config] later and does not compute them again. *)
Definition _config : config := {| interval := None; waitTimeout := None |}.
Definition _interval : Z := or_num (interval _config) 200.
Definition _waitTimeout : Z := or_num (waitTimeout _config) (10 * _interval).

(** ** The collection and the driver calls used on it

    A row is a document {key, value}.  Nothing in the source declares a
    unique index, so the collection is a list in which a key may occur
    more than once.  Each driver call is one atomic operation of the
    store; its callback receives [err] or a result. *)

Record doc : Type := { key : string; value : JS.value }.

Definition collection : Type := list doc.

Definition has_key (k : string) (d : doc) : bool := String.eqb (key d) k.

Definition findOne (k : string) (c : collection) : option doc :=
  find (has_key k) c.

(** insert: the callback's result is the array of inserted documents. *)
Definition insert (d : doc) (c : collection) : collection * list doc :=
  ((c ++ [d])%list, [d]).

(** update({key}, {$set: {value}}, {upsert: true}): the first match is
    updated, and a document is inserted when there is none. *)
Fixpoint update_first (k : string) (v : JS.value) (c : collection)
  : option collection :=
  match c with
  | [] => None
  | d :: r =>
      if has_key k d then Some ({| key := key d; value := v |} :: r)
      else option_map (cons d) (update_first k v r)
  end.

Definition update_upsert (k : string) (v : JS.value) (c : collection)
  : collection :=
  match update_first k v c with
  | Some c' => c'
  | None => (c ++ [{| key := k; value := v |}])%list
  end.

(** remove({key: {$in: keys}}) *)
Definition key_in (ks : list string) (d : doc) : bool :=
  existsb (String.eqb (key d)) ks.

Definition remove_in (ks : list string) (c : collection) : collection :=
  filter (fun d => negb (key_in ks d)) c.

Definition removed_count (ks : list string) (c : collection) : Z :=
  Z.of_nat (List.length (filter (key_in ks) c)).

Definition doc_value (d : doc) : JS.value := VDoc (key d) (value d).

(** [result[0]] *)
Definition first_of (result : list doc) : JS.value :=
  match result with
  | d :: _ => doc_value d
  | [] => VUndefined
  end.

(** ** set, setnx, get, del, setLock

    [err] is what the driver hands to the callback ([None]: no error). *)

Definition set (err : option JS.value) (k : string) (v : JS.value)
  (c : collection) : collection * settled :=
  match err with
  | Some e => (c, Rejected e)
  | None => (update_upsert k v c, Fulfilled (VNum 1))
  end.

Definition setnx (err_find err_insert : option JS.value)
  (k : string) (v : JS.value) (c : collection) : collection * settled :=
  match err_find with
  | Some _ => (c, Rejected (VStr "Error setting key"))
  | None =>
      match findOne k c with
      | Some _ => (c, Fulfilled (VBool true))
      | None =>
          match err_insert with
          | Some _ => (c, Rejected (VStr "Error setting key"))
          | None =>
              let (c', result) := insert {| key := k; value := v |} c in
              (c', Fulfilled (first_of result))
          end
      end
  end.

Definition get (err : option JS.value) (k : string) (c : collection)
  : settled :=
  match err with
  | Some e => Rejected e
  | None =>
      match findOne k c with
      | Some d => Fulfilled (value d)
      | None => Fulfilled VNull
      end
  end.

Inductive keysArg : Type :=
| OneKey (k : string)
| ManyKeys (ks : list string).

Definition keys_of (keys : keysArg) : list string :=
  match keys with
  | OneKey k => [k]
  | ManyKeys ks => ks
  end.

Definition del (err : option JS.value) (keys : keysArg) (c : collection)
  : collection * settled :=
  match err with
  | Some e => (c, Rejected e)
  | None =>
      (remove_in (keys_of keys) c,
       Fulfilled (VNum (removed_count (keys_of keys) c)))
  end.

Definition setLock (now : Z) (err_find err_insert : option JS.value)
  (k : string) (c : collection) : collection * settled :=
  let timeout := now + _waitTimeout in
  setnx err_find err_insert k (VNum timeout) c.

(** ** setnx as the two store operations it is made of

    The insert is issued from the callback of findOne, so other calls can
    run between the two.  A call is a task that waits for its findOne, then
    for its insert; a schedule names, step by step, the call whose pending
    driver callback runs next. *)

Inductive setnx_task : Type :=
| AwaitFindOne (k : string) (v : JS.value)
| AwaitInsert (k : string) (v : JS.value)
| Settled (p : settled).

Definition setnx_step (err : option JS.value) (t : setnx_task)
  (c : collection) : collection * setnx_task :=
  match t with
  | AwaitFindOne k v =>
      match err with
      | Some _ => (c, Settled (Rejected (VStr "Error setting key")))
      | None =>
          match findOne k c with
          | Some _ => (c, Settled (Fulfilled (VBool true)))
          | None => (c, AwaitInsert k v)
          end
      end
  | AwaitInsert k v =>
      match err with
      | Some _ => (c, Settled (Rejected (VStr "Error setting key")))
      | None =>
          let (c', result) := insert {| key := k; value := v |} c in
          (c', Settled (Fulfilled (first_of result)))
      end
  | Settled _ => (c, t)
  end.

Fixpoint replace_nth {A : Type} (i : nat) (x : A) (l : list A) : list A :=
  match l, i with
  | [], _ => []
  | _ :: r, O => x :: r
  | y :: r, S j => y :: replace_nth j x r
  end.

Definition pool_step (i : nat) (cp : collection * list setnx_task)
  : collection * list setnx_task :=
  let (c, pool) := cp in
  match nth_error pool i with
  | Some t =>
      let (c', t') := setnx_step None t c in (c', replace_nth i t' pool)
  | None => cp
  end.

Definition run_schedule (sched : list nat) (cp : collection * list setnx_task)
  : collection * list setnx_task :=
  fold_left (fun acc i => pool_step i acc) sched cp.

(** A call performed the insert when it resolved with the inserted
    document, and observed an existing row when it resolved with [true]. *)
Definition inserted (t : setnx_task) : bool :=
  match t with
  | Settled (Fulfilled (VDoc _ _)) => true
  | _ => false
  end.

Definition observed_existing (t : setnx_task) : bool :=
  match t with
  | Settled (Fulfilled (VBool true)) => true
  | _ => false
  end.

Definition rows_with (k : string) (c : collection) : nat :=
  List.length (filter (has_key k) c).

(** ** lock

    The promise returned by [lock] settles from callbacks: the callback of
    the first read, and the callbacks of the reads that the interval timer
    issues.  The state holds what those callbacks share: the deferred,
    [lockTimer], [expiration], and the reads issued by the timer that have
    not completed yet.  Each event carries what the environment supplies:
    the outcome of the read and the readings of [Date.now()]. *)

Inductive timer : Type := NotStarted | Active | Cleared.

Record lockState : Type := mkLock {
  promise : deferred;
  lockTimer : timer;
  expiration : option Z;
  reads_in_flight : nat;
  reads_issued : nat;
  first_read_done : bool
}.

Definition lock_init : lockState :=
  mkLock None NotStarted None 0 0 false.

Definition st_resolve (v : JS.value) (st : lockState) : lockState :=
  mkLock (resolve v (promise st)) (lockTimer st) (expiration st)
         (reads_in_flight st) (reads_issued st) (first_read_done st).

Definition st_reject (e : JS.value) (st : lockState) : lockState :=
  mkLock (reject e (promise st)) (lockTimer st) (expiration st)
         (reads_in_flight st) (reads_issued st) (first_read_done st).

Definition clearInterval (st : lockState) : lockState :=
  mkLock (promise st) Cleared (expiration st)
         (reads_in_flight st) (reads_issued st) (first_read_done st).

(** [expiration = now + _waitTimeout; lockTimer = setInterval(...)] *)
Definition start_polling (now : Z) (st : lockState) : lockState :=
  mkLock (promise st) Active (Some (now + _waitTimeout))
         (reads_in_flight st) (reads_issued st) (first_read_done st).

(** What [p.catch(h).done(cb)] hands to [cb]: the value of [p], or, after a
    rejection, the [undefined] that the handler [h] returns. *)
Definition after_catch (p : settled) : JS.value :=
  match p with
  | Fulfilled v => v
  | Rejected _ => VUndefined
  end.

(** The callbacks of the first read (lines 78-117). *)
Definition on_first_read (r : settled) (now_check now_start : Z)
  (st : lockState) : lockState :=
  let st :=
    match r with
    | Rejected err => st_reject err st
    | Fulfilled _ => st
    end in
  let result := after_catch r in
  if strict_neq_null result then
    if parseInt_lt result now_check then st_reject (VStr "lock expired") st
    else start_polling now_start st
  else st_reject (VStr "no lock") st.

(** [Date.now() > expiration] *)
Definition past (now : Z) (expiration : option Z) : bool :=
  match expiration with
  | Some e => now >? e
  | None => false
  end.

(** The callbacks of a read issued by the timer (lines 92-109). *)
Definition on_poll_read (r : settled) (now : Z) (st : lockState)
  : lockState :=
  let st :=
    match r with
    | Rejected _ => st_reject (VStr "lock error") (clearInterval st)
    | Fulfilled _ => st
    end in
  let _result := after_catch r in
  if negb (truthy _result) then
    st_resolve (VStr "lock absent") (clearInterval st)
  else if past now (expiration st) then
    st_reject (VStr "lock timeout") (clearInterval st)
  else st.

Inductive lockEvent : Type :=
| FirstRead (r : settled) (now_check now_start : Z)
| TimerFires
| PollRead (r : settled) (now : Z).

(** One event of the event loop; [None] when the event cannot occur: the
    first read completes once, a timer fires only while it is active, and
    a poll read completes only if one is in flight. *)
Definition lock_step (st : lockState) (ev : lockEvent) : option lockState :=
  match ev with
  | FirstRead r now_check now_start =>
      if first_read_done st then None
      else
        Some (on_first_read r now_check now_start
                (mkLock (promise st) (lockTimer st) (expiration st)
                        (reads_in_flight st) (reads_issued st) true))
  | TimerFires =>
      match lockTimer st with
      | Active =>
          Some (mkLock (promise st) (lockTimer st) (expiration st)
                       (S (reads_in_flight st)) (S (reads_issued st))
                       (first_read_done st))
      | _ => None
      end
  | PollRead r now =>
      match reads_in_flight st with
      | O => None
      | S n =>
          Some (on_poll_read r now
                  (mkLock (promise st) (lockTimer st) (expiration st)
                          n (reads_issued st) (first_read_done st)))
      end
  end.

Fixpoint lock_run (st : lockState) (evs : list lockEvent)
  : option lockState :=
  match evs with
  | [] => Some st
  | ev :: rest =>
      match lock_step st ev with
      | Some st' => lock_run st' rest
      | None => None
      end
  end.

(** A call of [lock], observed after the events [evs]. *)
Definition lock (evs : list lockEvent) : option lockState :=
  lock_run lock_init evs.

(** The three exits of the polling callback. *)
Definition poll_exit (r : settled) (now : Z) (st : lockState) : bool :=
  match r with
  | Rejected _ => true
  | Fulfilled v => negb (truthy v) || past now (expiration st)
  end.

(** An event that leaves the loop waiting: a tick of the timer, or a poll
    read that finds a truthy value no later than the deadline. *)
Definition still_waiting (deadline : Z) (ev : lockEvent) : bool :=
  match ev with
  | FirstRead _ _ _ => false
  | TimerFires => true
  | PollRead (Fulfilled x) now => truthy x && (now <=? deadline)
  | PollRead (Rejected _) _ => false
  end.

(** Every state of a run is the initial one or comes after the first
    read. *)
Definition after_first_read (st : lockState) : Prop :=
  st = lock_init \/ first_read_done st = true.

(** The values the promise of [lock] can hold: pending, resolved with
    [lock absent], or rejected with one of the four messages or with the
    error [first] of the first read. *)
Definition lock_outcome (first : option JS.value) (d : deferred) : Prop :=
  match d with
  | None => True
  | Some (Fulfilled x) => x = VStr "lock absent"
  | Some (Rejected e) =>
      In e [VStr "no lock"; VStr "lock expired"; VStr "lock error";
            VStr "lock timeout"]
      \/ first = Some e
  end.

(** The error of the first read of a run, if it failed. *)
Definition first_read_error (evs : list lockEvent) : option JS.value :=
  match evs with
  | FirstRead (Rejected e) _ _ :: _ => Some e
  | _ => None
  end.

(** A timer that was started has a deadline, and reads are in flight only
    once it was started. *)
Definition timer_has_deadline (st : lockState) : Prop :=
  (lockTimer st = NotStarted -> reads_in_flight st = 0%nat)
  /\ (lockTimer st <> NotStarted -> expiration st <> None).

Definition is_tick (ev : lockEvent) : bool :=
  match ev with TimerFires => true | _ => false end.

Definition ticks (evs : list lockEvent) : nat :=
  List.length (filter is_tick evs).

(** ** The clock of the polling loop

    [setInterval(f, _interval)] is called in the statement that follows
    [expiration = Date.now() + _waitTimeout], so the timer was started
    [_waitTimeout] before [expiration].  From then on [f] is called every
    [_interval] milliseconds until the timer is cleared: the [n]-th call
    is due [n * _interval] after the start. *)
Definition tick_due (start : Z) (n : nat) : Z :=
  start + Z.of_nat n * _interval.

Definition timer_start (st : lockState) : option Z :=
  option_map (fun e => e - _waitTimeout) (expiration st).

(** An event with the time at which the event loop runs it. *)
Definition timedEvent : Type := (Z * lockEvent)%type.

(** A tick runs when it is due.  The reading of [Date.now()] from which
    the first read's callback computes [expiration], and the one a poll
    read's callback compares with it, are the time at which the callback
    runs. *)
Definition on_time (st : lockState) (te : timedEvent) : bool :=
  match snd te with
  | FirstRead _ _ now_start => now_start =? fst te
  | TimerFires =>
      match timer_start st with
      | Some s => fst te =? tick_due s (S (reads_issued st))
      | None => false
      end
  | PollRead _ now => now =? fst te
  end.

Fixpoint lock_run_at (st : lockState) (tevs : list timedEvent)
  : option lockState :=
  match tevs with
  | [] => Some st
  | te :: rest =>
      if on_time st te then
        match lock_step st (snd te) with
        | Some st' => lock_run_at st' rest
        | None => None
        end
      else None
  end.

(** A call of [lock], observed after the timed events [tevs]. *)
Definition lock_at (tevs : list timedEvent) : option lockState :=
  lock_run_at lock_init tevs.

(** The times at which the timer fired, each issuing a read. *)
Definition tick_times (tevs : list timedEvent) : list Z :=
  map fst (filter (fun te => is_tick (snd te)) tevs).

End Persist.

(* ================================================================== *)
(** * The image class *)
(* ================================================================== *)

Module Image.

Import Persist.

(** ** The instance and its keys *)

(** The options hash: [None] is a property the object does not own. *)
Record Options : Type := {
  action : option string;
  width : option JS.value;
  height : option JS.value;
  cropX : option JS.value;
  cropY : option JS.value
}.

(** What the request parser returns. *)
Record parsedRequest : Type := {
  parsed_dir : string;
  parsed_filename : string;
  parsed_ext : string;
  parsed_options : Options;
  parsed_json : bool
}.

(** The variables read from [process.env]. *)
Record processEnv : Type := {
  NODE_ENV : option string;
  REDIS_NAMESPACE : option string
}.

Record Img : Type := {
  env : string;
  redisNamespace : string;
  dir : string;
  file : string;
  ext : string;
  mime : string;
  options : Options;
  json : bool;
  uuid : string;
  tmpFile : string
}.

Definition parseFormat (format : string) : string :=
  let f := toLowerCase format in
  if String.eqb f "jpeg" then "image/jpeg"
  else if String.eqb f "jpg" then "image/jpeg"
  else if String.eqb f "png" then "image/png"
  else if String.eqb f "gif" then "image/gif"
  else "application/octet-stream".

(** The constructor.  [md5] is the hex digest of the crypto module and
    [tmp] the temporary path made from a fresh uuid. *)
Definition new_Img (md5 : string -> string) (tmp : string)
  (penv : processEnv) (parsed : parsedRequest) : Img :=
  {| env := index0 (or_string (NODE_ENV penv) "development");
     redisNamespace := or_string (REDIS_NAMESPACE penv) "img-server";
     dir := parsed_dir parsed;
     file := parsed_filename parsed;
     ext := parsed_ext parsed;
     mime := parseFormat (parsed_ext parsed);
     options := parsed_options parsed;
     json := parsed_json parsed;
     uuid := md5 ("" ++ parsed_dir parsed ++ parsed_filename parsed);
     tmpFile := tmp |}.

(** [options.hasOwnProperty('action')] *)
Definition has_action (o : Options) : bool :=
  match action o with Some _ => true | None => false end.

(** [if (options.hasOwnProperty(name)) str += tag + options[name]] *)
Definition field (tag : string) (x : option JS.value) : string :=
  match x with
  | Some v => tag ++ toString v
  | None => ""
  end.

Definition _optionsString (img : Img) : string :=
  if json img then ""
  else
    match action (options img) with
    | None => ""
    | Some a =>
        "_a" ++ index0 a
        ++ field "_w" (width (options img))
        ++ field "_h" (height (options img))
        ++ field "_cx" (cropX (options img))
        ++ field "_cy" (cropY (options img))
    end.

Definition _key (img : Img) : string :=
  redisNamespace img ++ ":" ++ env img ++ ":" ++ uuid img.

Definition _origKey (img : Img) : string :=
  "" ++ _key img ++ ":orig".

Definition _versionKey (img : Img) : string :=
  if negb (has_action (options img)) then _key img
  else "" ++ _key img ++ _optionsString img.

Definition _lockKey (img : Img) : string :=
  let key := redisNamespace img ++ ":lock:" ++ env img ++ ":" ++ uuid img in
  if negb (has_action (options img)) then key
  else "" ++ key ++ _optionsString img.

Definition filename (img : Img) : string :=
  "" ++ uuid img ++ _optionsString img ++ "." ++ toLowerCase (ext img).

Definition s3Path (img : Img) : string :=
  "" ++ env img ++ "/" ++ filename img.

Definition originalS3Path (img : Img) : string :=
  "" ++ dir img ++ (if String.eqb (dir img) "" then "" else "/")
     ++ file img ++ "." ++ ext img.

(** JSON.stringify({m: mime}) for a mime type without characters to
    escape (every result of [parseFormat]). *)
Definition dquote : string := String (ascii_of_nat 34) "".

Definition stringify_m (m : string) : string :=
  "{" ++ dquote ++ "m" ++ dquote ++ ":" ++ dquote ++ m ++ dquote ++ "}".

(** ** The world of one request *)

Inductive effect : Type :=
| GetFile (path : string)
| Manipulate
| Upload (src dest mime : string)
| PersistGet (k : string)
| PersistSet (k : string) (v : JS.value)
| PersistSetnx (k : string) (v : JS.value)
| PersistDel (keys : keysArg).

(** The trace records each external call with the collection as it was
    when the call was made. *)
Record world : Type := mkWorld {
  store : collection;
  result : deferred;
  trace : list (effect * collection);
  uncaught : list JS.value
}.

(** What the collaborators answer during one request: the blob store, the
    transformer, the clock, and the errors of the driver. *)
Record oracle : Type := {
  now : Z;
  getFile_outcome : settled;
  manipulate_outcome : settled;
  upload_outcome : settled;
  get_err : option JS.value;
  findOne_err : option JS.value;
  insert_err : option JS.value;
  update_err : option JS.value;
  remove_err : option JS.value;
  (* how many further calls of the build are made before the store has
     carried out the removal of the lock key, which nothing waits for *)
  remove_lands : nat
}.

Definition M (A : Type) : Type := world -> A * world.

Definition ret {A : Type} (a : A) : M A := fun w => (a, w).

Definition bind {A B : Type} (m : M A) (k : A -> M B) : M B :=
  fun w => let (a, w') := m w in k a w'.

Notation "x <- m ;; k" := (bind m (fun x => k))
  (at level 61, m at next level, right associativity).
Notation "m ;; k" := (bind m (fun _ => k))
  (at level 61, right associativity).

Definition emit (e : effect) : M unit :=
  fun w =>
    (tt, mkWorld (store w) (result w) (trace w ++ [(e, store w)])%list
                 (uncaught w)).

Definition on_store (f : collection -> collection * settled) : M settled :=
  fun w =>
    let (c, p) := f (store w) in
    (p, mkWorld c (result w) (trace w) (uncaught w)).

Definition deferred_resolve (v : JS.value) : M unit :=
  fun w => (tt, mkWorld (store w) (resolve v (result w)) (trace w) (uncaught w)).

Definition deferred_reject (e : JS.value) : M unit :=
  fun w => (tt, mkWorld (store w) (reject e (result w)) (trace w) (uncaught w)).

(** An exception that [done] rethrows in a later turn of the event loop. *)
Definition throw_uncaught (e : JS.value) : M unit :=
  fun w => (tt, mkWorld (store w) (result w) (trace w) (uncaught w ++ [e])%list).

(** ** The promise combinators of Q

    A handler returns the outcome of its own promise: [Fulfilled] with the
    value it returns (or the outcome of the promise it returns), [Rejected]
    with what it throws. *)

Definition p_catch (p : settled) (h : JS.value -> M settled) : M settled :=
  match p with
  | Rejected e => h e
  | Fulfilled _ => ret p
  end.

Definition p_then (p : settled) (h : JS.value -> M settled) : M settled :=
  match p with
  | Fulfilled v => h v
  | Rejected _ => ret p
  end.

Definition p_finally (p : settled) (f : M unit) : M settled :=
  f ;; ret p.

Definition p_done (p : settled) (h : JS.value -> M unit) : M unit :=
  match p with
  | Fulfilled v => h v
  | Rejected e => throw_uncaught e
  end.

(** ** The collaborators *)

Definition persist_get (o : oracle) (k : string) : M settled :=
  emit (PersistGet k) ;;
  on_store (fun c => (c, Persist.get (get_err o) k c)).

Definition persist_set (o : oracle) (k : string) (v : JS.value) : M settled :=
  emit (PersistSet k v) ;;
  on_store (Persist.set (update_err o) k v).

(** [persist.del(keys)] followed through its promise: the caller goes on
    in a handler of the promise, so the store has carried the removal out
    by then. *)
Definition persist_del (o : oracle) (keys : keysArg) : M settled :=
  emit (PersistDel keys) ;;
  on_store (Persist.del (remove_err o) keys).

(** [persist.del(keys)] whose promise is dropped: the call only issues the
    removal to the driver. *)
Definition persist_del_call (o : oracle) (keys : keysArg) : M unit :=
  emit (PersistDel keys).

(** The store carries out a removal that was issued (a driver error
    leaves the collection as it is).  Carrying it out again changes
    nothing. *)
Definition removal_done (o : oracle) (keys : keysArg) : M unit :=
  _ <- on_store (Persist.del (remove_err o) keys) ;;
  ret tt.

(** The removal seen from the [j]-th call made after it was issued: it
    has been carried out if the store needed no more than [j] calls. *)
Definition removal_lands (o : oracle) (keys : keysArg) (j : nat) : M unit :=
  if Nat.leb (remove_lands o) j then removal_done o keys else ret tt.

Definition persist_setLock (o : oracle) (k : string) : M settled :=
  emit (PersistSetnx k (VNum (now o + _waitTimeout))) ;;
  on_store (Persist.setLock (now o) (findOne_err o) (insert_err o) k).

Definition s3_getFile (o : oracle) (path : string) : M settled :=
  emit (GetFile path) ;; ret (getFile_outcome o).

Definition manipulate (o : oracle) (img : Img) (res : JS.value) : M settled :=
  emit Manipulate ;; ret (manipulate_outcome o).

Definition s3_upload (o : oracle) (src dest mime : string) : M settled :=
  emit (Upload src dest mime) ;; ret (upload_outcome o).

(** ** findVersion, save, processVersion, generateVersion *)

Definition findVersion (o : oracle) (img : Img) : M unit :=
  p <- persist_get o (_versionKey img) ;;
  p <- p_catch p (fun err =>
         deferred_reject (VError err) ;;
         ret (Fulfilled VUndefined)) ;;
  p_done p (fun res =>
    deferred_resolve (VBool (strict_neq_null res))).

(** [save] settles a deferred of its own that [processVersion] drops; the
    write is the last call of the build, and it is applied here. *)
Definition save (o : oracle) (img : Img) : M unit :=
  _ <- persist_set o (_versionKey img) (VStr (stringify_m (mime img))) ;;
  ret tt.

Definition TypeError : JS.value := VError (VStr "TypeError").

(** The handler of [finally] calls [persist.del] and returns nothing, so
    the chain does not wait for the removal: the calls that follow are
    made on the collection as the store has it by then
    ([removal_lands]), and the removal is carried out at the latest after
    them ([removal_done]). *)
Definition processVersion (o : oracle) (img : Img) : M unit :=
  let lockKey := OneKey (_lockKey img) in
  p <- s3_getFile o (originalS3Path img) ;;
  p <- p_catch p (fun err =>
         deferred_reject err ;;
         ret (Fulfilled VUndefined)) ;;
  p <- p_finally p (
         (* always kill the lock regardless of the outcome *)
         persist_del_call o lockKey) ;;
  p <- p_then p (fun res =>
         if has_properties res then
           (* if (res.statusCode !== 200) { new Error(res.statusCode); }
              builds an error object and drops it *)
           removal_lands o lockKey 0 ;;
           manipulate o img res
         else ret (Rejected TypeError)) ;;
  p <- p_then p (fun _ =>
         removal_lands o lockKey 1 ;;
         s3_upload o (tmpFile img) (s3Path img) (mime img)) ;;
  p_done p (fun res =>
    if negb (truthy res) then deferred_reject res
    else
      removal_lands o lockKey 2 ;;
      save o img ;;
      deferred_resolve VImg) ;;
  removal_done o lockKey.

(** [lockp] is the outcome of [persist.lock(this._lockKey())]. *)
Definition generateVersion (o : oracle) (img : Img) (lockp : settled)
  : M unit :=
  p <- p_then lockp (fun msg =>
         findVersion o img ;;
         ret (Fulfilled VUndefined)) ;;
  _ <- p_catch p (fun err =>
         (* err.message *)
         if has_properties err then
           p <- persist_setLock o (_lockKey img) ;;
           p_done p (fun _ => processVersion o img) ;;
           ret (Fulfilled VUndefined)
         else ret (Rejected TypeError)) ;;
  ret tt.

Definition new_world (c : collection) : world := mkWorld c None [] [].

Definition run (m : M unit) (c : collection) : world := snd (m (new_world c)).

Definition effects (w : world) : list effect := map fst (trace w).

Definition is_build_effect (e : effect) : bool :=
  match e with
  | GetFile _ | Manipulate | Upload _ _ _ => true
  | _ => false
  end.

Definition is_del_of (k : string) (e : effect) : bool :=
  match e with
  | PersistDel (OneKey k') => String.eqb k' k
  | _ => false
  end.

(** The calls that [processVersion] makes after the release of the lock. *)
Definition after_release (e : effect) : Prop :=
  match e with
  | Manipulate | Upload _ _ _ | PersistSet _ _ => True
  | _ => False
  end.

(** ** validExtension, flushKeys, _isAnimatedGif *)

Definition allowedFormats : list string := ["jpg"; "jpeg"; "png"; "gif"].

(** Array.prototype.indexOf: the first index of [x], or -1. *)
Fixpoint indexOf (x : string) (l : list string) : Z :=
  match l with
  | [] => -1
  | y :: r =>
      if String.eqb y x then 0
      else let i := indexOf x r in if i =? -1 then -1 else i + 1
  end.

Definition validExtension (img : Img) : bool :=
  indexOf (toLowerCase (ext img)) allowedFormats >? -1.

Definition flushKeys (o : oracle) (img : Img) : M unit :=
  p <- persist_del o (ManyKeys [_versionKey img; "" ++ _key img ++ ":orig"]) ;;
  p <- p_catch p (fun err =>
         deferred_reject err ;;
         ret (Fulfilled VUndefined)) ;;
  p_done p (fun res => deferred_resolve res).

(** The part of the data of gm's identify that [_isAnimatedGif] reads. *)
Record identifyInfo : Type := { format : JS.value; Scene : JS.value }.

(** [None]: a TypeError, [info.format] has no method [toLowerCase]. *)
Definition _isAnimatedGif (info : identifyInfo) : option bool :=
  match format info with
  | VNull => Some false
  | VStr f =>
      if negb (String.eqb (toLowerCase f) "gif") then Some false
      else Some (strict_neq_null (Scene info))
  | _ => None
  end.

(** ** A sample request

    [/a/b.jpg] resized to 100 by 50 in the development environment, and
    collaborators that answer without driver errors; the store carries
    out the removal of the lock key while the transform runs. *)

Definition sample_img : Img :=
  new_Img (fun _ => "187ef4436122d1cc2f40dc2b92f0eba0") "/tmp/5c1f"
    {| NODE_ENV := None; REDIS_NAMESPACE := None |}
    {| parsed_dir := "a"; parsed_filename := "b"; parsed_ext := "jpg";
       parsed_options :=
         {| action := Some "resize"; width := Some (VNum 100);
            height := Some (VNum 50); cropX := None; cropY := None |};
       parsed_json := false |}.

Definition answers (t : Z) (fetch transform upload : settled) : oracle :=
  {| now := t;
     getFile_outcome := fetch;
     manipulate_outcome := transform;
     upload_outcome := upload;
     get_err := None; findOne_err := None; insert_err := None;
     update_err := None; remove_err := None;
     remove_lands := 1 |}.

(** The same answers from a store that has carried out the removal of
    the lock key when the [n]-th call after it is made, and not before. *)
Definition landing (n : nat) (o : oracle) : oracle :=
  {| now := now o;
     getFile_outcome := getFile_outcome o;
     manipulate_outcome := manipulate_outcome o;
     upload_outcome := upload_outcome o;
     get_err := get_err o; findOne_err := findOne_err o;
     insert_err := insert_err o; update_err := update_err o;
     remove_err := remove_err o;
     remove_lands := n |}.

End Image.

(* ================================================================== *)
(** * Properties of the store operations *)
(* ================================================================== *)

Section StoreProperties.

Import Persist.
Open Scope list_scope.

Variables (k : string) (v : JS.value) (c : collection).

Lemma has_key_refl : has_key k {| key := k; value := v |} = true.
Proof. unfold has_key; simpl; apply String.eqb_refl. Qed.

Lemma findOne_app (d : doc) :
  findOne k (c ++ [d]) =
  match findOne k c with
  | Some d' => Some d'
  | None => if has_key k d then Some d else None
  end.
Proof.
  unfold findOne.
  induction c as [|x r IH]; simpl.
  - reflexivity.
  - destruct (has_key k x); [reflexivity | exact IH].
Qed.

Lemma findOne_inserted :
  findOne k c = None ->
  findOne k (c ++ [{| key := k; value := v |}])
  = Some {| key := k; value := v |}.
Proof.
  intros H. rewrite findOne_app, H, has_key_refl. reflexivity.
Qed.

Lemma findOne_remove_in : findOne k (remove_in [k] c) = None.
Proof.
  unfold findOne, remove_in, key_in.
  induction c as [|x r IH]; simpl; [reflexivity|].
  rewrite orb_false_r.
  destruct (String.eqb (key x) k) eqn:E; simpl.
  - exact IH.
  - unfold has_key at 1. rewrite E. exact IH.
Qed.

Lemma update_first_other (k' : string) (c' : collection) :
  k' <> k ->
  update_first k' v c = Some c' ->
  findOne k c' = findOne k c.
Proof.
  intros Hne. revert c'. unfold findOne.
  induction c as [|x r IH]; simpl; intros c' H; [discriminate|].
  destruct (has_key k' x) eqn:E.
  - injection H as <-. simpl.
    unfold has_key in *; simpl.
    apply String.eqb_eq in E. rewrite E.
    destruct (String.eqb_spec k' k); [contradiction | reflexivity].
  - destruct (update_first k' v r) as [r'|]; [|discriminate].
    injection H as <-. simpl.
    destruct (has_key k x); [reflexivity | apply IH; reflexivity].
Qed.

Lemma findOne_update_upsert_other (k' : string) :
  k' <> k ->
  findOne k (update_upsert k' v c) = findOne k c.
Proof.
  intros Hne. unfold update_upsert.
  destruct (update_first k' v c) as [c'|] eqn:E.
  - eapply update_first_other; eassumption.
  - rewrite findOne_app.
    destruct (findOne k c); [reflexivity|].
    unfold has_key; simpl.
    destruct (String.eqb_spec k' k); [contradiction | reflexivity].
Qed.

Lemma remove_in_idem (ks : list string) :
  remove_in ks (remove_in ks c) = remove_in ks c.
Proof.
  unfold remove_in. induction c as [|x r IH]; simpl; [reflexivity|].
  destruct (key_in ks x) eqn:E; simpl; [exact IH|].
  rewrite E. simpl. now rewrite IH.
Qed.

Lemma remove_in_cons (x : doc) (r : collection) :
  remove_in [k] (x :: r)
  = if String.eqb (key x) k then remove_in [k] r else x :: remove_in [k] r.
Proof.
  unfold remove_in, key_in. simpl. rewrite orb_false_r.
  destruct (String.eqb (key x) k); reflexivity.
Qed.

Lemma update_first_remove_in (k' : string) :
  k' <> k ->
  update_first k' v (remove_in [k] c)
  = option_map (remove_in [k]) (update_first k' v c).
Proof.
  intros Hne.
  induction c as [|x r IH]; [reflexivity|].
  rewrite remove_in_cons. cbn [update_first].
  destruct (has_key k' x) eqn:E.
  - assert (Hx : String.eqb (key x) k = false).
    { apply String.eqb_neq. intros H. apply String.eqb_eq in E.
      congruence. }
    rewrite Hx. cbn [update_first option_map]. rewrite E.
    rewrite remove_in_cons. cbn [key]. rewrite Hx. reflexivity.
  - destruct (String.eqb (key x) k) eqn:Hx.
    + rewrite IH. destruct (update_first k' v r); cbn [option_map];
        [|reflexivity].
      rewrite remove_in_cons, Hx. reflexivity.
    + cbn [update_first]. rewrite E, IH.
      destruct (update_first k' v r); cbn [option_map]; [|reflexivity].
      rewrite remove_in_cons, Hx. reflexivity.
Qed.

Lemma remove_in_update_upsert (k' : string) :
  k' <> k ->
  remove_in [k] (update_upsert k' v c)
  = update_upsert k' v (remove_in [k] c).
Proof.
  intros Hne. unfold update_upsert.
  rewrite (update_first_remove_in k' Hne).
  destruct (update_first k' v c); simpl; [reflexivity|].
  unfold remove_in. rewrite filter_app. simpl.
  unfold key_in; simpl. rewrite orb_false_r.
  destruct (String.eqb_spec k' k); [contradiction | reflexivity].
Qed.

End StoreProperties.

Section Setnx.

Import Persist.
Open Scope list_scope.

(** The task machine run alone, both callbacks in a row, is [setnx]. *)
Lemma setnx_steps (e1 e2 : option JS.value) (k : string) (v : JS.value)
  (c : collection) :
  let (c1, t1) := setnx_step e1 (AwaitFindOne k v) c in
  let (c2, t2) := setnx_step e2 t1 c1 in
  (c2, t2) = (fst (setnx e1 e2 k v c), Settled (snd (setnx e1 e2 k v c))).
Proof.
  unfold setnx, setnx_step.
  destruct e1; [reflexivity|].
  destruct (findOne k c); [reflexivity|].
  destruct e2; reflexivity.
Qed.

(** C3, as the code has it: [setnx] resolves with [true] exactly when the
    key was already there, and then changes nothing; when the key was
    absent it appends the row and resolves with the inserted document,
    which is not [true]. *)
Theorem setnx_resolution (k : string) (v : JS.value) (c : collection) :
  (forall d, findOne k c = Some d ->
     setnx None None k v c = (c, Fulfilled (VBool true)))
  /\ (findOne k c = None ->
      setnx None None k v c
      = (c ++ [{| key := k; value := v |}], Fulfilled (VDoc k v)))
  /\ (snd (setnx None None k v c) = Fulfilled (VBool true)
      <-> findOne k c <> None).
Proof.
  unfold setnx. repeat split.
  - intros d H. rewrite H. reflexivity.
  - intros H. rewrite H. reflexivity.
  - destruct (findOne k c); simpl; intros H; [discriminate | discriminate H].
  - destruct (findOne k c); simpl; intros H; [reflexivity | contradiction].
Qed.

Lemma setnx_resolution_witness :
  setnx None None "k" (VNum 2) [{| key := "k"; value := VNum 1 |}]
  = ([{| key := "k"; value := VNum 1 |}], Fulfilled (VBool true))
  /\ setnx None None "k" (VNum 2) []
     = ([{| key := "k"; value := VNum 2 |}], Fulfilled (VDoc "k" (VNum 2))).
Proof.
  split.
  - exact (proj1 (setnx_resolution "k" (VNum 2)
                    [{| key := "k"; value := VNum 1 |}])
                 {| key := "k"; value := VNum 1 |} eq_refl).
  - exact (proj1 (proj2 (setnx_resolution "k" (VNum 2) [])) eq_refl).
Defined.

(** C3 as stated fails: on a key that is present the call inserts nothing
    and resolves with [true]; on an absent key it inserts and resolves
    with a value other than [true]. *)
Lemma setnx_true_means_existing :
  (findOne "k" [{| key := "k"; value := VNum 1 |}] <> None
   /\ setnx None None "k" (VNum 2) [{| key := "k"; value := VNum 1 |}]
      = ([{| key := "k"; value := VNum 1 |}], Fulfilled (VBool true)))
  /\ (findOne "k" [] = None
      /\ fst (setnx None None "k" (VNum 2) [])
         = [{| key := "k"; value := VNum 2 |}]
      /\ snd (setnx None None "k" (VNum 2) []) <> Fulfilled (VBool true)).
Proof.
  repeat split; try reflexivity; simpl; discriminate.
Qed.

(** C2, as the code has it: the read and the insert of [setnx] are two
    store operations.  When the two calls on an absent key run one after
    the other, the first inserts and the second observes the row and
    resolves with [true]; when both reads run before either insert, both
    calls insert and the key ends up with two rows. *)
Theorem setnx_serial_or_interleaved (k : string) (v1 v2 : JS.value)
  (c : collection) :
  findOne k c = None ->
  let calls := [AwaitFindOne k v1; AwaitFindOne k v2] in
  run_schedule [0; 0; 1]%nat (c, calls)
  = (c ++ [{| key := k; value := v1 |}],
     [Settled (Fulfilled (VDoc k v1)); Settled (Fulfilled (VBool true))])
  /\ run_schedule [1; 1; 0]%nat (c, calls)
     = (c ++ [{| key := k; value := v2 |}],
        [Settled (Fulfilled (VBool true)); Settled (Fulfilled (VDoc k v2))])
  /\ run_schedule [0; 1; 0; 1]%nat (c, calls)
     = ((c ++ [{| key := k; value := v1 |}]) ++ [{| key := k; value := v2 |}],
        [Settled (Fulfilled (VDoc k v1)); Settled (Fulfilled (VDoc k v2))])
  /\ run_schedule [0; 1; 1; 0]%nat (c, calls)
     = ((c ++ [{| key := k; value := v2 |}]) ++ [{| key := k; value := v1 |}],
        [Settled (Fulfilled (VDoc k v1)); Settled (Fulfilled (VDoc k v2))]).
Proof.
  intros H calls. unfold calls, run_schedule. simpl.
  rewrite H. simpl.
  rewrite (findOne_inserted k v1 c H), (findOne_inserted k v2 c H).
  simpl. rewrite H. simpl.
  repeat split; reflexivity.
Qed.

Lemma setnx_serial_or_interleaved_witness :
  run_schedule [0; 0; 1]%nat
    ([], [AwaitFindOne "k" (VNum 1); AwaitFindOne "k" (VNum 2)])
  = ([{| key := "k"; value := VNum 1 |}],
     [Settled (Fulfilled (VDoc "k" (VNum 1)));
      Settled (Fulfilled (VBool true))]).
Proof.
  exact (proj1 (setnx_serial_or_interleaved "k" (VNum 1) (VNum 2) []
                  eq_refl)).
Defined.

(** C2 as stated fails: two calls on the same absent key whose reads both
    run before the inserts both perform the insert, and neither observes
    the other's row. *)
Lemma setnx_interleaved_both_insert :
  let calls := [AwaitFindOne "k" (VNum 1); AwaitFindOne "k" (VNum 2)] in
  let final := run_schedule [0; 1; 0; 1]%nat ([], calls) in
  findOne "k" [] = None
  /\ map inserted (snd final) = [true; true]
  /\ map observed_existing (snd final) = [false; false]
  /\ rows_with "k" (fst final) = 2%nat.
Proof.
  repeat split; reflexivity.
Qed.

End Setnx.

(* ================================================================== *)
(** * Properties of the polling lock *)
(* ================================================================== *)

Section Lock.

Import Persist.
Open Scope list_scope.

Lemma is_settled_resolve (x : JS.value) (d : deferred) :
  is_settled (resolve x d) = true.
Proof. destruct d; reflexivity. Qed.

Lemma is_settled_reject (x : JS.value) (d : deferred) :
  is_settled (reject x d) = true.
Proof. destruct d; reflexivity. Qed.

(** The callbacks of a poll read touch neither [expiration] nor the
    counters. *)
Lemma on_poll_read_frame (r : settled) (now : Z) (st : lockState) :
  let st' := on_poll_read r now st in
  expiration st' = expiration st
  /\ reads_in_flight st' = reads_in_flight st
  /\ reads_issued st' = reads_issued st
  /\ first_read_done st' = first_read_done st.
Proof.
  unfold on_poll_read.
  destruct r as [x|e]; simpl.
  - destruct (truthy x); simpl; [|repeat split].
    destruct (past now (expiration st)); simpl; repeat split.
  - repeat split.
Qed.

Lemma on_first_read_done (r : settled) (n1 n2 : Z) (st : lockState) :
  first_read_done (on_first_read r n1 n2 st) = first_read_done st.
Proof.
  unfold on_first_read.
  destruct r as [x|e]; simpl.
  - destruct (strict_neq_null x); [|reflexivity].
    destruct (parseInt_lt x n1); reflexivity.
  - reflexivity.
Qed.

Lemma lock_step_after_first_read (st st' : lockState) (ev : lockEvent) :
  after_first_read st -> lock_step st ev = Some st' ->
  first_read_done st' = true.
Proof.
  intros Hinv Hstep.
  destruct ev as [r n1 n2| |r now]; simpl in Hstep.
  - destruct (first_read_done st); [discriminate|].
    injection Hstep as <-. rewrite on_first_read_done. reflexivity.
  - destruct Hinv as [-> | Hd]; [discriminate|].
    destruct (lockTimer st); try discriminate.
    injection Hstep as <-. exact Hd.
  - destruct Hinv as [-> | Hd]; [discriminate|].
    destruct (reads_in_flight st); [discriminate|].
    injection Hstep as <-.
    pose proof (on_poll_read_frame r now
      (mkLock (promise st) (lockTimer st) (expiration st) n
              (reads_issued st) (first_read_done st))) as F.
    simpl in F. destruct F as (_ & _ & _ & ->). exact Hd.
Qed.

Lemma lock_run_after_first_read (evs : list lockEvent) :
  forall st st',
    after_first_read st -> lock_run st evs = Some st' ->
    after_first_read st'.
Proof.
  induction evs as [|ev r IH]; simpl; intros st st' Hinv Hrun.
  - injection Hrun as <-. exact Hinv.
  - destruct (lock_step st ev) as [st1|] eqn:E; [|discriminate].
    apply (IH st1 st'); [|exact Hrun].
    right. eapply lock_step_after_first_read; eassumption.
Qed.

(** Once the timer is cleared it stays cleared, it issues no read, and a
    settled promise stays settled. *)
Lemma cleared_forever (evs : list lockEvent) :
  forall st st',
    first_read_done st = true -> lockTimer st = Cleared ->
    is_settled (promise st) = true ->
    lock_run st evs = Some st' ->
    lockTimer st' = Cleared
    /\ reads_issued st' = reads_issued st
    /\ is_settled (promise st') = true
    /\ forallb (fun ev => negb (is_tick ev)) evs = true.
Proof.
  induction evs as [|ev r IH]; simpl; intros st st' Hd Hc Hs Hrun.
  - injection Hrun as <-. repeat split; assumption.
  - destruct (lock_step st ev) as [st1|] eqn:E; [|discriminate].
    destruct ev as [x n1 n2| |x now]; simpl in E.
    + rewrite Hd in E. discriminate.
    + rewrite Hc in E. discriminate.
    + destruct (reads_in_flight st) as [|n]; [discriminate|].
      injection E as <-.
      assert (H1 : first_read_done
                (on_poll_read x now
                   (mkLock (promise st) (lockTimer st) (expiration st) n
                      (reads_issued st) (first_read_done st))) = true).
      { pose proof (on_poll_read_frame x now
          (mkLock (promise st) (lockTimer st) (expiration st) n
                  (reads_issued st) (first_read_done st))) as F.
        simpl in F. destruct F as (_ & _ & _ & ->). exact Hd. }
      assert (H2 : lockTimer
                (on_poll_read x now
                   (mkLock (promise st) (lockTimer st) (expiration st) n
                      (reads_issued st) (first_read_done st))) = Cleared
              /\ is_settled (promise
                (on_poll_read x now
                   (mkLock (promise st) (lockTimer st) (expiration st) n
                      (reads_issued st) (first_read_done st)))) = true
              /\ reads_issued
                (on_poll_read x now
                   (mkLock (promise st) (lockTimer st) (expiration st) n
                      (reads_issued st) (first_read_done st)))
                 = reads_issued st).
      { unfold on_poll_read. destruct x as [y|e]; simpl.
        - destruct (truthy y); simpl.
          + destruct (past now (expiration st)); simpl;
              repeat split; auto using is_settled_reject.
          + repeat split; auto using is_settled_resolve.
        - repeat split; auto using is_settled_resolve. }
      destruct H2 as (Hc1 & Hs1 & Hi1).
      destruct (IH _ _ H1 Hc1 Hs1 Hrun) as (A & B & C & D).
      repeat split; try assumption. congruence.
Qed.

(** While every event leaves the loop waiting, the promise stays pending,
    the timer active and the deadline the one computed at the start; the
    timer has issued one read per tick. *)
Lemma waiting_run (deadline : Z) (evs : list lockEvent) :
  forall st st',
    promise st = None -> lockTimer st = Active ->
    expiration st = Some deadline ->
    forallb (still_waiting deadline) evs = true ->
    lock_run st evs = Some st' ->
    promise st' = None /\ lockTimer st' = Active
    /\ expiration st' = Some deadline
    /\ reads_issued st' = (reads_issued st + ticks evs)%nat.
Proof.
  induction evs as [|ev r IH]; simpl; intros st st' Hp Ht He Hw Hrun.
  - injection Hrun as <-. unfold ticks; simpl.
    rewrite Nat.add_0_r. repeat split; assumption.
  - apply andb_true_iff in Hw as [Hev Hw].
    destruct (lock_step st ev) as [st1|] eqn:E; [|discriminate].
    destruct ev as [x n1 n2| |x now]; simpl in E, Hev.
    + discriminate.
    + rewrite Ht in E. injection E as <-.
      apply IH in Hrun; simpl; try first [assumption | reflexivity].
      destruct Hrun as (A & B & C & D). simpl in D.
      repeat split; try assumption.
      rewrite D. unfold ticks; simpl. lia.
    + destruct (reads_in_flight st) as [|n]; [discriminate|].
      injection E as <-.
      destruct x as [y|e]; [|discriminate].
      apply andb_true_iff in Hev as [Hy Hnow].
      unfold on_poll_read in Hrun; simpl in Hrun.
      rewrite Hy, He in Hrun; simpl in Hrun.
      assert (Hgt : (now >? deadline) = false).
      { apply Z.leb_le in Hnow. rewrite Z.gtb_ltb. apply Z.ltb_ge. lia. }
      rewrite Hgt in Hrun.
      apply IH in Hrun; simpl; first [assumption | reflexivity].
Qed.

(** The polling loop for any value a re-read may yield.  After a first
    read that finds a value other than null whose parsed expiry is not in
    the past, and while the events so far left the loop waiting: the
    promise is pending, the timer is active and has issued one read per
    tick, and the deadline is the [now + _waitTimeout] of the first read's
    callback, never recomputed.  The next tick issues a read.  The next
    poll read settles the call with [lock absent] when its result is
    falsy, and with [lock timeout] when its result is truthy and the clock
    is past the deadline; otherwise the loop goes on. *)
Lemma lock_polling_loop (v : JS.value) (now_check now_start : Z)
  (evs : list lockEvent) (st : lockState) :
  strict_neq_null v = true ->
  parseInt_lt v now_check = false ->
  forallb (still_waiting (now_start + _waitTimeout)) evs = true ->
  lock (FirstRead (Fulfilled v) now_check now_start :: evs) = Some st ->
  (promise st = None /\ lockTimer st = Active
   /\ expiration st = Some (now_start + _waitTimeout)
   /\ reads_issued st = ticks evs)
  /\ (exists st', lock_step st TimerFires = Some st'
                  /\ reads_in_flight st' = S (reads_in_flight st))
  /\ (forall now st',
        lock_step st (PollRead (Fulfilled VNull) now) = Some st' ->
        promise st' = Some (Fulfilled (VStr "lock absent")))
  /\ (forall x now st',
        lock_step st (PollRead (Fulfilled x) now) = Some st' ->
        expiration st' = Some (now_start + _waitTimeout)
        /\ if truthy x then
             if now >? now_start + _waitTimeout then
               promise st' = Some (Rejected (VStr "lock timeout"))
               /\ lockTimer st' = Cleared
             else promise st' = None /\ lockTimer st' = Active
           else
             promise st' = Some (Fulfilled (VStr "lock absent"))
             /\ lockTimer st' = Cleared).
Proof.
  intros Hv Hexp Hw Hrun.
  unfold lock in Hrun.
  simpl in Hrun. unfold on_first_read in Hrun. simpl in Hrun.
  rewrite Hv, Hexp in Hrun.
  apply (waiting_run (now_start + _waitTimeout)) in Hrun;
    try first [assumption | reflexivity].
  destruct Hrun as (Hp & Ht & He & Hi).
  simpl in Hi.
  assert (Hpoll : forall x now st',
    lock_step st (PollRead (Fulfilled x) now) = Some st' ->
    expiration st' = Some (now_start + _waitTimeout)
    /\ if truthy x then
         if now >? now_start + _waitTimeout then
           promise st' = Some (Rejected (VStr "lock timeout"))
           /\ lockTimer st' = Cleared
         else promise st' = None /\ lockTimer st' = Active
       else
         promise st' = Some (Fulfilled (VStr "lock absent"))
         /\ lockTimer st' = Cleared).
  { intros x now st' Hstep. simpl in Hstep.
    destruct (reads_in_flight st) as [|n]; [discriminate|].
    injection Hstep as <-.
    unfold on_poll_read; simpl. rewrite Hp, Ht, He. simpl.
    destruct (truthy x); simpl.
    - destruct (now >? now_start + _waitTimeout); simpl; auto.
    - auto. }
  repeat split; try assumption.
  - simpl. rewrite Ht. eexists; split; reflexivity.
  - intros now st' Hstep.
    destruct (Hpoll VNull now st' Hstep) as [_ H]. simpl in H. apply H.
  - apply (Hpoll x now st' H).
  - apply (Hpoll x now st' H).
Qed.

(** A timed run is a run of the events it is made of. *)
Lemma lock_run_at_untimed (tevs : list timedEvent) :
  forall st st',
    lock_run_at st tevs = Some st' ->
    lock_run st (map snd tevs) = Some st'.
Proof.
  induction tevs as [|te r IH]; simpl; intros st st' H; [exact H|].
  destruct (on_time st te); [|discriminate].
  destruct (lock_step st (snd te)) as [st1|]; [|discriminate].
  apply IH. exact H.
Qed.

(** While the loop waits, the timer fires when its calls are due, one
    after the other. *)
Lemma waiting_run_at (start : Z) (tevs : list timedEvent) :
  forall st st',
    promise st = None -> lockTimer st = Active ->
    expiration st = Some (start + _waitTimeout) ->
    forallb (still_waiting (start + _waitTimeout)) (map snd tevs) = true ->
    lock_run_at st tevs = Some st' ->
    tick_times tevs
    = map (tick_due start)
        (seq (S (reads_issued st)) (ticks (map snd tevs))).
Proof.
  induction tevs as [|[t ev] r IH]; intros st st' Hp Ht He Hw Hrun;
    [reflexivity|].
  cbn [map snd forallb] in Hw. apply andb_true_iff in Hw as [Hev Hw].
  cbn [lock_run_at snd] in Hrun.
  destruct (on_time st (t, ev)) eqn:Hon; [|discriminate].
  destruct (lock_step st ev) as [st1|] eqn:E; [|discriminate].
  pose proof (waiting_run (start + _waitTimeout) [ev] st st1 Hp Ht He) as W.
  cbn [forallb lock_run] in W. rewrite Hev, E in W.
  destruct (W eq_refl eq_refl) as (Hp1 & Ht1 & He1 & Hi1).
  specialize (IH st1 st' Hp1 Ht1 He1 Hw Hrun).
  unfold tick_times, ticks in *. cbn [map snd filter].
  destruct ev as [x n1 n2| |x now]; cbn [is_tick] in *.
  - discriminate.
  - cbn [map fst List.length seq]. rewrite IH.
    unfold ticks in Hi1. cbn [filter is_tick List.length] in Hi1.
    replace (reads_issued st1) with (S (reads_issued st)) by lia.
    f_equal.
    unfold on_time, timer_start in Hon. cbn [fst snd] in Hon.
    rewrite He in Hon. cbn [option_map] in Hon.
    apply Z.eqb_eq in Hon. rewrite Hon. f_equal. lia.
  - rewrite IH. unfold ticks in Hi1. cbn [filter is_tick List.length] in Hi1.
    replace (reads_issued st1) with (reads_issued st) by lia. reflexivity.
Qed.

(** C8.  A call of [lock] whose first read finds the key present with a
    value that has not expired enters the polling loop, and for as long
    as the loop waits: the promise is pending, the timer is active, and
    the deadline is the [now + _waitTimeout] computed once when the loop
    started, whatever the number of ticks since.  The timer issues one
    re-read per tick at the fixed interval: the [i]-th re-read at
    [i * _interval] after the start, each [_interval] after the one
    before, and the next one when it is due and at no other time.  A
    re-read that finds the key absent resolves the call with
    [lock absent]; a re-read that finds it present (a row as [setLock]
    writes it, the only writer of lock keys) rejects the call with
    [lock timeout] when the clock is past the deadline, and otherwise
    leaves the loop waiting with the same deadline. *)
Theorem lock_polls_at_fixed_interval (k : string) (v : JS.value)
  (now_check now_start : Z) (tevs : list timedEvent) (st : lockState) :
  strict_neq_null v = true ->
  parseInt_lt v now_check = false ->
  forallb (still_waiting (now_start + _waitTimeout)) (map snd tevs) = true ->
  lock_at ((now_start, FirstRead (Fulfilled v) now_check now_start) :: tevs)
  = Some st ->
  let deadline := now_start + _waitTimeout in
  (promise st = None /\ lockTimer st = Active
   /\ expiration st = Some deadline)
  /\ (reads_issued st = ticks (map snd tevs)
      /\ tick_times tevs
         = map (tick_due now_start) (seq 1 (reads_issued st)))
  /\ (forall n, tick_due now_start (S n) = tick_due now_start n + _interval)
  /\ (forall t,
        t <> tick_due now_start (S (reads_issued st)) ->
        lock_run_at st [(t, TimerFires)] = None)
  /\ exists st1,
       lock_run_at st
         [(tick_due now_start (S (reads_issued st)), TimerFires)]
       = Some st1
       /\ reads_issued st1 = S (reads_issued st)
       /\ (forall c now,
             findOne k c = None ->
             exists st2,
               lock_run_at st1 [(now, PollRead (get None k c) now)]
               = Some st2
               /\ promise st2 = Some (Fulfilled (VStr "lock absent"))
               /\ lockTimer st2 = Cleared)
       /\ (forall c d t now,
             findOne k c = Some d ->
             value d = VNum (t + _waitTimeout) -> 0 <= t ->
             exists st2,
               lock_run_at st1 [(now, PollRead (get None k c) now)]
               = Some st2
               /\ expiration st2 = Some deadline
               /\ if now >? deadline then
                    promise st2 = Some (Rejected (VStr "lock timeout"))
                    /\ lockTimer st2 = Cleared
                  else promise st2 = None /\ lockTimer st2 = Active).
Proof.
  intros Hv Hexp Hw Hrun deadline. unfold deadline.
  unfold lock_at in Hrun. cbn [lock_run_at on_time snd fst] in Hrun.
  rewrite Z.eqb_refl in Hrun.
  cbn [lock_step lock_init first_read_done promise lockTimer expiration
       reads_in_flight reads_issued] in Hrun.
  unfold on_first_read in Hrun. cbn [after_catch] in Hrun.
  rewrite Hv, Hexp in Hrun.
  assert (Htimes := Hrun).
  apply (waiting_run_at now_start) in Htimes;
    try first [assumption | reflexivity].
  apply lock_run_at_untimed in Hrun.
  apply (waiting_run (now_start + _waitTimeout)) in Hrun;
    try first [assumption | reflexivity].
  destruct Hrun as (Hp & Ht & He & Hi).
  cbn [start_polling reads_issued Nat.add] in Hi, Htimes.
  split; [repeat split; assumption|].
  split; [split; [exact Hi | rewrite Hi; exact Htimes]|].
  split.
  { intros n. unfold tick_due. rewrite Nat2Z.inj_succ. lia. }
  assert (Hs : timer_start st = Some now_start).
  { unfold timer_start. rewrite He. cbn [option_map]. f_equal. lia. }
  split.
  { intros t Hne. cbn [lock_run_at]. unfold on_time. cbn [snd fst].
    rewrite Hs.
    destruct (Z.eqb_spec t (tick_due now_start (S (reads_issued st))));
      [contradiction | reflexivity]. }
  eexists. split.
  { cbn [lock_run_at]. unfold on_time. cbn [snd fst]. rewrite Hs.
    rewrite Z.eqb_refl. cbn [lock_step]. rewrite Ht. reflexivity. }
  split; [reflexivity|]. split.
  - intros c now Hf. eexists. split.
    + cbn [lock_run_at]. unfold on_time. cbn [snd fst].
      rewrite Z.eqb_refl. cbn [lock_step reads_in_flight]. reflexivity.
    + unfold get. rewrite Hf. unfold on_poll_read.
      cbn [after_catch truthy negb promise lockTimer st_resolve
           clearInterval].
      rewrite Hp. split; reflexivity.
  - intros c d t now Hf Hval Ht0. eexists. split.
    + cbn [lock_run_at]. unfold on_time. cbn [snd fst].
      rewrite Z.eqb_refl. cbn [lock_step reads_in_flight]. reflexivity.
    + unfold get. rewrite Hf, Hval. unfold on_poll_read.
      cbn [after_catch truthy].
      assert (Hnz : (t + _waitTimeout =? 0) = false).
      { apply Z.eqb_neq. change _waitTimeout with 2000. lia. }
      rewrite Hnz. cbn [negb expiration promise lockTimer].
      rewrite He. cbn [past].
      destruct (now >? now_start + _waitTimeout);
        cbn [st_reject clearInterval promise lockTimer expiration];
        rewrite ?Hp, ?Ht, ?He; repeat split; reflexivity.
Qed.

Lemma lock_polls_at_fixed_interval_witness :
  let tevs :=
    [(1200, TimerFires); (1210, PollRead (Fulfilled (VNum 3000)) 1210);
     (1400, TimerFires)] in
  let st := mkLock None Active (Some 3000) 1 2 true in
  lock_at ((1000, FirstRead (Fulfilled (VNum 3000)) 1000 1000) :: tevs)
  = Some st
  /\ (promise st = None /\ lockTimer st = Active
      /\ expiration st = Some (1000 + _waitTimeout))
  /\ (reads_issued st = ticks (map snd tevs)
      /\ tick_times tevs
         = map (tick_due 1000) (seq 1 (reads_issued st))).
Proof.
  pose proof (lock_polls_at_fixed_interval "k" (VNum 3000) 1000 1000
                [(1200, TimerFires);
                 (1210, PollRead (Fulfilled (VNum 3000)) 1210);
                 (1400, TimerFires)]
                (mkLock None Active (Some 3000) 1 2 true)
                eq_refl eq_refl eq_refl eq_refl) as H.
  split; [reflexivity|].
  split; [exact (proj1 H) | exact (proj1 (proj2 H))].
Defined.

(** X21.  The three exits of the loop.  In every run of [lock], a poll
    read that takes one of them (a read error, a falsy result, a truthy
    result past the deadline) leaves the timer cleared and the promise
    settled: by the
    exit itself when the promise was pending, with [lock error],
    [lock absent] and [lock timeout] respectively.  From then on the timer
    cannot fire: no later event is a tick, no further read is issued, and
    the timer stays cleared. *)
Theorem lock_exit_clears_timer (evs0 : list lockEvent) (st st' : lockState)
  (r : settled) (now : Z) :
  lock evs0 = Some st ->
  lock_step st (PollRead r now) = Some st' ->
  poll_exit r now st = true ->
  lockTimer st' = Cleared
  /\ is_settled (promise st') = true
  /\ (promise st = None ->
      promise st'
      = Some match r with
             | Rejected _ => Rejected (VStr "lock error")
             | Fulfilled x =>
                 if truthy x then Rejected (VStr "lock timeout")
                 else Fulfilled (VStr "lock absent")
             end)
  /\ lock_step st' TimerFires = None
  /\ (forall evs st'',
        lock_run st' evs = Some st'' ->
        lockTimer st'' = Cleared
        /\ reads_issued st'' = reads_issued st'
        /\ is_settled (promise st'') = true
        /\ forallb (fun ev => negb (is_tick ev)) evs = true).
Proof.
  intros Hreach Hstep Hexit.
  assert (Hinv : after_first_read st).
  { eapply lock_run_after_first_read; [left; reflexivity | exact Hreach]. }
  assert (Hd : first_read_done st' = true).
  { eapply lock_step_after_first_read; eassumption. }
  simpl in Hstep.
  destruct (reads_in_flight st) as [|n]; [discriminate|].
  injection Hstep as <-.
  assert (Hc : lockTimer
            (on_poll_read r now
               (mkLock (promise st) (lockTimer st) (expiration st) n
                  (reads_issued st) (first_read_done st))) = Cleared
          /\ is_settled (promise
            (on_poll_read r now
               (mkLock (promise st) (lockTimer st) (expiration st) n
                  (reads_issued st) (first_read_done st)))) = true).
  { unfold on_poll_read. unfold poll_exit in Hexit.
    destruct r as [x|e]; simpl.
    - destruct (truthy x); simpl in *.
      + rewrite Hexit. simpl. split; auto using is_settled_reject.
      + split; auto using is_settled_resolve.
    - split; auto using is_settled_resolve. }
  destruct Hc as [Hc Hs].
  split; [exact Hc|]. split; [exact Hs|]. split; [|split].
  - intros Hp. unfold on_poll_read. unfold poll_exit in Hexit.
    destruct r as [x|e]; simpl; rewrite Hp.
    + destruct (truthy x); simpl in *.
      * rewrite Hexit. reflexivity.
      * reflexivity.
    + reflexivity.
  - simpl. rewrite Hc. reflexivity.
  - intros evs st'' Hrun.
    exact (cleared_forever evs _ _ Hd Hc Hs Hrun).
Qed.

Lemma lock_exit_clears_timer_witness :
  lockTimer (mkLock (Some (Rejected (VStr "lock timeout"))) Cleared
               (Some 3000) 0 1 true) = Cleared.
Proof.
  exact (proj1 (lock_exit_clears_timer
                  [FirstRead (Fulfilled (VNum 5000)) 1000 1000; TimerFires]
                  (mkLock None Active (Some 3000) 1 1 true)
                  (mkLock (Some (Rejected (VStr "lock timeout"))) Cleared
                     (Some 3000) 0 1 true)
                  (Fulfilled (VNum 5000)) 4000
                  eq_refl eq_refl eq_refl)).
Defined.

(** X22.  In a call whose first read succeeds, a settled promise always
    comes with a timer that is not running. *)
Lemma lock_settled_timer_off (x : JS.value) (n1 n2 : Z)
  (evs : list lockEvent) :
  forall st,
    lock (FirstRead (Fulfilled x) n1 n2 :: evs) = Some st ->
    is_settled (promise st) = true -> lockTimer st <> Active.
Proof.
  intros st Hrun. unfold lock in Hrun.
  assert (G : forall evs s s',
             first_read_done s = true ->
             (is_settled (promise s) = true -> lockTimer s <> Active) ->
             lock_run s evs = Some s' ->
             is_settled (promise s') = true -> lockTimer s' <> Active).
  { clear. induction evs as [|ev r IH]; simpl; intros s s' Hd Hi Hrun.
    - injection Hrun as <-. exact Hi.
    - destruct (lock_step s ev) as [s1|] eqn:E; [|discriminate].
      apply (IH s1 s'); [| |exact Hrun].
      + eapply lock_step_after_first_read; [right|]; eassumption.
      + destruct ev as [y a b| |y now]; simpl in E.
        * rewrite Hd in E; discriminate.
        * destruct (lockTimer s) eqn:T; try discriminate.
          injection E as <-. simpl. exact Hi.
        * destruct (reads_in_flight s); [discriminate|].
          injection E as <-. unfold on_poll_read.
          destruct y as [z|e]; simpl.
          -- destruct (truthy z); simpl; [|discriminate].
             destruct (past now (expiration s)); simpl;
               [discriminate | exact Hi].
          -- discriminate. }
  simpl in Hrun. revert Hrun. apply G.
  - apply on_first_read_done.
  - unfold on_first_read; simpl.
    destruct (strict_neq_null x); simpl; [|discriminate].
    destruct (parseInt_lt x n1); simpl; discriminate.
Qed.

(** C9, the code at the failing input.  When the first read fails, the
    catch handler rejects the promise with the error of the store and
    returns [undefined]; the callback given to [done] then runs with
    [undefined], which is not null and does not parse to a number, and
    starts the timer.  The promise is settled and the timer is active: it
    fires and issues reads (here two, both finding the key held) until
    one of the exits of the loop is taken. *)
Lemma lock_first_read_error_starts_timer :
  lock [FirstRead (Rejected (VStr "ECONNRESET")) 1000 1000]
  = Some (mkLock (Some (Rejected (VStr "ECONNRESET"))) Active
                 (Some (1000 + _waitTimeout)) 0 0 true)
  /\ lock [FirstRead (Rejected (VStr "ECONNRESET")) 1000 1000;
           TimerFires; PollRead (Fulfilled (VNum 3000)) 1210;
           TimerFires; PollRead (Fulfilled (VNum 3000)) 1405]
     = Some (mkLock (Some (Rejected (VStr "ECONNRESET"))) Active
                    (Some (1000 + _waitTimeout)) 0 2 true).
Proof. split; reflexivity. Qed.

End Lock.

(* ================================================================== *)
(** * Key derivation *)
(* ================================================================== *)

Section Keys.

Import Image.

Lemma append_empty_r (s : string) : (s ++ "")%string = s.
Proof. induction s as [|a r IH]; simpl; [reflexivity | now rewrite IH]. Qed.

(** The lock key is five characters longer than the version key. *)
Lemma length_append (s t : string) :
  String.length (s ++ t) = (String.length s + String.length t)%nat.
Proof. induction s as [|a r IH]; simpl; [reflexivity | now rewrite IH]. Qed.

Lemma versionKey_neq_lockKey (img : Img) : _versionKey img <> _lockKey img.
Proof.
  intros H. apply (f_equal String.length) in H.
  unfold _versionKey, _lockKey, _key in H.
  destruct (negb (has_action (options img)));
    repeat (rewrite length_append in H; simpl in H); lia.
Qed.

(** C10.  The version key is computed from the namespace, the environment
    character, the digest of directory and file name, the options and the
    JSON flag, and from nothing else (neither the extension nor the
    temporary path).  Without an action, or for a JSON request, it is the
    base key.  Otherwise it is the base key followed by [_a] and the first
    character of the action, then [_w], [_h], [_cx], [_cy] with their
    values, each present only if the option is, in this order. *)
Theorem versionKey_derivation :
  (forall img,
     _key img = redisNamespace img ++ ":" ++ env img ++ ":" ++ uuid img)
  /\ (forall img, action (options img) = None -> _versionKey img = _key img)
  /\ (forall img, json img = true -> _versionKey img = _key img)
  /\ (forall img c rest,
        json img = false ->
        action (options img) = Some (String c rest) ->
        _versionKey img
        = _key img ++ "_a" ++ String c ""
          ++ match width (options img) with
             | Some x => "_w" ++ toString x | None => "" end
          ++ match height (options img) with
             | Some x => "_h" ++ toString x | None => "" end
          ++ match cropX (options img) with
             | Some x => "_cx" ++ toString x | None => "" end
          ++ match cropY (options img) with
             | Some x => "_cy" ++ toString x | None => "" end)
  /\ (forall md5 tmp tmp' penv d f e e' o j,
        let parsed x :=
          {| parsed_dir := d; parsed_filename := f; parsed_ext := x;
             parsed_options := o; parsed_json := j |} in
        _versionKey (new_Img md5 tmp penv (parsed e))
        = _versionKey (new_Img md5 tmp' penv (parsed e'))
        /\ uuid (new_Img md5 tmp penv (parsed e)) = md5 (d ++ f))
  /\ (forall md5 tmp penv d f e,
        let img :=
          new_Img md5 tmp penv
            {| parsed_dir := d; parsed_filename := f; parsed_ext := e;
               parsed_options :=
                 {| action := Some "resize"; width := Some (VNum 100);
                    height := Some (VNum 50); cropX := None;
                    cropY := None |};
               parsed_json := false |} in
        _versionKey img = _key img ++ "_ar_w100_h50")
  /\ (forall md5 tmp penv d f e,
        let img :=
          new_Img md5 tmp penv
            {| parsed_dir := d; parsed_filename := f; parsed_ext := e;
               parsed_options :=
                 {| action := None; width := None; height := None;
                    cropX := None; cropY := None |};
               parsed_json := false |} in
        _versionKey img = _key img).
Proof.
  repeat split.
  - intros img H. unfold _versionKey, has_action. rewrite H. reflexivity.
  - intros img H. unfold _versionKey, _optionsString. rewrite H.
    destruct (has_action (options img)); simpl;
      [apply append_empty_r | reflexivity].
  - intros img c rest Hj Ha.
    unfold _versionKey, _optionsString, has_action, field.
    rewrite Hj, Ha. reflexivity.
Qed.

Lemma versionKey_derivation_witness :
  let img a j :=
    {| env := "d"; redisNamespace := "img-server"; dir := "a"; file := "b";
       ext := "jpg"; mime := "image/jpeg";
       options := {| action := a; width := None;
                     height := Some (VNum 7); cropX := Some (VNum 1);
                     cropY := None |};
       json := j; uuid := "0cc1"; tmpFile := "/tmp/t" |} in
  _versionKey (img (Some "crop") false) = "img-server:d:0cc1_ac_h7_cx1"
  /\ _versionKey (img (Some "crop") true) = "img-server:d:0cc1"
  /\ _versionKey (img None false) = "img-server:d:0cc1".
Proof.
  pose proof versionKey_derivation as (_ & Hnone & Hjson & Haction & _).
  intros img. split; [|split].
  - exact (Haction (img (Some "crop") false) "c"%char "rop"
             eq_refl eq_refl).
  - exact (Hjson (img (Some "crop") true) eq_refl).
  - exact (Hnone (img None false) eq_refl).
Defined.

End Keys.

(* ================================================================== *)
(** * Properties of the build *)
(* ================================================================== *)

Section Build.

Import Persist Image.
Open Scope list_scope.

Ltac unfold_chain :=
  unfold run, generateVersion, findVersion, processVersion, s3_getFile,
    removal_lands, removal_done, persist_del_call,
    persist_del, persist_setLock, persist_get, manipulate, s3_upload, save,
    persist_set, p_catch, p_finally, p_then, p_done, bind, ret, emit,
    on_store, deferred_reject, deferred_resolve, throw_uncaught, new_world,
    Persist.del, Persist.set, Persist.get, keys_of.

Ltac eval_world :=
  cbn -[_lockKey _versionKey originalS3Path s3Path stringify_m remove_in
        update_upsert removed_count app findOne].

(** The calls of [processVersion], from any world: the fetch, then the
    request to remove the lock, then calls that each see the collection
    either as it was or as the removal leaves it, according to the number
    of calls the store needs to carry the removal out; at the end the
    removal has been carried out. *)
Lemma processVersion_shape (o : oracle) (img : Img) (w : world) :
  let w' := snd (processVersion o img w) in
  let released :=
    fst (del (remove_err o) (OneKey (_lockKey img)) (store w)) in
  exists rest,
    trace w'
    = trace w ++ (GetFile (originalS3Path img), store w)
              :: (PersistDel (OneKey (_lockKey img)), store w) :: rest
    /\ Forall (fun es => after_release (fst es)
                         /\ (snd es = store w \/ snd es = released)) rest
    /\ (store w' = released
        \/ store w'
           = fst (set (update_err o) (_versionKey img)
                    (VStr (stringify_m (mime img))) released))
    /\ (forall res,
          getFile_outcome o = Fulfilled res -> has_properties res = true ->
          exists rest',
            rest
            = (Manipulate,
               if Nat.leb (remove_lands o) 0 then released else store w)
              :: rest')
    /\ (forall j es,
          nth_error rest j = Some es ->
          snd es
          = if Nat.leb (remove_lands o) j then released else store w).
Proof.
  pose proof (versionKey_neq_lockKey img) as Hne.
  unfold_chain.
  destruct (remove_lands o) as [|[|[|n]]];
  destruct (remove_err o), (update_err o);
  (destruct (getFile_outcome o) as [res|err];
   [destruct (has_properties res) eqn:Hp;
    [destruct (manipulate_outcome o) as [m|m];
     [destruct (upload_outcome o) as [u|u]|]|]|]);
  eval_world;
  try match goal with
      | |- context [truthy ?u] => destruct (truthy u); eval_world
      end;
  rewrite ?remove_in_idem,
    ?(remove_in_update_upsert (_lockKey img) _ _ (_versionKey img) Hne),
    ?remove_in_idem;
  eexists; repeat rewrite <- app_assoc; cbn [app];
  (split; [reflexivity|]);
  (split;
   [ repeat (apply Forall_cons;
             [ split;
               [exact I | first [left; reflexivity | right; reflexivity]] |]);
     apply Forall_nil |]);
  (split; [first [left; reflexivity | right; reflexivity]|]);
  (split;
   [ intros r Hr Hh;
     first [ discriminate Hr
           | injection Hr as <-;
             first [congruence | eexists; reflexivity] ]
   | intros j es Hj;
     destruct j as [|[|[|j]]]; cbn [nth_error] in Hj;
     try discriminate Hj; try (destruct j; discriminate Hj);
     injection Hj as <-; reflexivity ]).
Qed.

Lemma no_del_after_release (k : string) (rest : list (effect * collection))
  (P : effect * collection -> Prop) :
  Forall (fun es => after_release (fst es) /\ P es) rest ->
  filter (is_del_of k) (map fst rest) = [].
Proof.
  induction 1 as [|[e s] r [He _] _ IH]; simpl; [reflexivity|].
  destruct e; simpl in He; try contradiction; simpl; exact IH.
Qed.

Lemma released_has_no_lock (o : oracle) (img : Img) (c : collection) :
  remove_err o = None ->
  findOne (_lockKey img)
    (fst (del (remove_err o) (OneKey (_lockKey img)) c)) = None.
Proof.
  intros ->. simpl. apply findOne_remove_in.
Qed.

(** C6.  Whatever the blob store, the transformer and the driver answer,
    [processVersion] calls [del] on the lock key, once; and when the
    driver reports no error for that removal, the collection holds no row
    under the lock key when the attempt is over. *)
Theorem processVersion_always_deletes_lock (o : oracle) (img : Img)
  (c : collection) :
  let w := run (processVersion o img) c in
  filter (is_del_of (_lockKey img)) (effects w)
  = [PersistDel (OneKey (_lockKey img))]
  /\ (remove_err o = None -> findOne (_lockKey img) (store w) = None).
Proof.
  intros w. unfold w, run, effects.
  destruct (processVersion_shape o img (new_world c))
    as (rest & Ht & Hrest & Hstore & _).
  cbn [new_world trace store app] in Ht, Hrest, Hstore.
  split.
  - rewrite Ht. cbn [map fst filter is_del_of].
    rewrite String.eqb_refl.
    rewrite (no_del_after_release _ _ _ Hrest). reflexivity.
  - intros Hr.
    pose proof (released_has_no_lock o img c Hr) as Hnone.
    destruct Hstore as [-> | ->]; [exact Hnone|].
    unfold set. destruct (update_err o); cbn [fst]; [exact Hnone|].
    rewrite findOne_update_upsert_other; [exact Hnone|].
    apply versionKey_neq_lockKey.
Qed.

Lemma processVersion_always_deletes_lock_witness :
  findOne (_lockKey sample_img)
    (store (run (processVersion
                   (answers 1000 (Rejected (VStr "NoSuchKey"))
                      (Fulfilled VUndefined) (Fulfilled (VResponse 200)))
                   sample_img)
              [{| key := _lockKey sample_img; value := VNum 3000 |}]))
  = None.
Proof.
  exact (proj2 (processVersion_always_deletes_lock
                  (answers 1000 (Rejected (VStr "NoSuchKey"))
                     (Fulfilled VUndefined) (Fulfilled (VResponse 200)))
                  sample_img
                  [{| key := _lockKey sample_img; value := VNum 3000 |}])
               eq_refl).
Defined.

(** C7, as the code has it.  [processVersion] calls [del] on the lock key
    as soon as the fetch has settled, strictly before the transform, the
    upload and the write of the version record are called.  Nothing waits
    for that removal: the [j]-th call made after it sees the collection
    with the lock row removed when the store has carried the removal out
    by then, and the collection as it was, lock row included, when it has
    not.  Once carried out without a driver error, the removal leaves no
    row under the lock key.  After a fetch that yields a response the
    transform is the first of these calls. *)
Theorem processVersion_releases_before_transform (o : oracle) (img : Img)
  (c : collection) :
  let released := fst (del (remove_err o) (OneKey (_lockKey img)) c) in
  exists rest,
    trace (run (processVersion o img) c)
    = (GetFile (originalS3Path img), c)
      :: (PersistDel (OneKey (_lockKey img)), c) :: rest
    /\ Forall (fun es => after_release (fst es)) rest
    /\ (forall j es,
          nth_error rest j = Some es ->
          snd es = if Nat.leb (remove_lands o) j then released else c)
    /\ (remove_err o = None -> findOne (_lockKey img) released = None)
    /\ (forall res,
          getFile_outcome o = Fulfilled res -> has_properties res = true ->
          exists rest',
            rest
            = (Manipulate,
               if Nat.leb (remove_lands o) 0 then released else c) :: rest').
Proof.
  intros released. unfold released, run.
  destruct (processVersion_shape o img (new_world c))
    as (rest & Ht & Hrest & _ & Hm & Hj).
  cbn [new_world trace store app] in Ht, Hrest, Hm, Hj.
  exists rest. split; [exact Ht|]. split; [|split; [|split]].
  - eapply Forall_impl; [|exact Hrest]. intros es [H _]. exact H.
  - exact Hj.
  - apply released_has_no_lock.
  - exact Hm.
Qed.

Lemma processVersion_releases_before_transform_witness :
  let o := landing 1 (answers 1000 (Fulfilled (VResponse 200))
                        (Fulfilled VUndefined) (Fulfilled (VResponse 200))) in
  let c := [{| key := _lockKey sample_img; value := VNum 3000 |}] in
  findOne (_lockKey sample_img)
    (fst (del (remove_err o) (OneKey (_lockKey sample_img)) c)) = None
  /\ exists rest,
       trace (run (processVersion o sample_img) c)
       = (GetFile (originalS3Path sample_img), c)
         :: (PersistDel (OneKey (_lockKey sample_img)), c) :: rest
       /\ Forall (fun es => after_release (fst es)) rest.
Proof.
  destruct (processVersion_releases_before_transform
              (landing 1 (answers 1000 (Fulfilled (VResponse 200))
                            (Fulfilled VUndefined)
                            (Fulfilled (VResponse 200))))
              sample_img
              [{| key := _lockKey sample_img; value := VNum 3000 |}])
    as (rest & Ht & Ha & _ & Hnone & _).
  split; [exact (Hnone eq_refl)|].
  exists rest. split; [exact Ht | exact Ha].
Defined.

(** C7 as stated fails.  A worker holds the lock row; the fetch settles
    and [del] is called; the transform is called next, before the store
    has carried the removal out, and the row under the lock key is still
    stored at that call.  The upload and the write of the version record
    find it gone. *)
Lemma processVersion_transform_sees_lock :
  let o := landing 1 (answers 1000 (Fulfilled (VResponse 200))
                        (Fulfilled VUndefined) (Fulfilled (VResponse 200))) in
  let row := {| key := _lockKey sample_img; value := VNum 3000 |} in
  trace (run (processVersion o sample_img) [row])
  = [(GetFile (originalS3Path sample_img), [row]);
     (PersistDel (OneKey (_lockKey sample_img)), [row]);
     (Manipulate, [row]);
     (Upload (tmpFile sample_img) (s3Path sample_img) (mime sample_img), []);
     (PersistSet (_versionKey sample_img)
        (VStr (stringify_m (mime sample_img))), [])]
  /\ findOne (_lockKey sample_img) [row] = Some row.
Proof.
  split; reflexivity.
Qed.

(** C5, the code at the failing input.  Whatever status code the fetched
    response carries (404 as well as 200), when the transformer and the
    upload then succeed, [processVersion] runs the transform and the
    upload, writes the version record and resolves with the artifact: the
    error built from the status code is never thrown. *)
Lemma processVersion_ignores_fetch_status (status t : Z) (img : Img)
  (c : collection) :
  let o := answers t (Fulfilled (VResponse status)) (Fulfilled VUndefined)
             (Fulfilled (VResponse 200)) in
  let w := run (processVersion o img) c in
  result w = Some (Fulfilled VImg)
  /\ effects w
     = [GetFile (originalS3Path img);
        PersistDel (OneKey (_lockKey img));
        Manipulate;
        Upload (tmpFile img) (s3Path img) (mime img);
        PersistSet (_versionKey img) (VStr (stringify_m (mime img)))].
Proof.
  unfold effects. unfold_chain. eval_world. split; reflexivity.
Qed.

(** X23.  A rejected fetch settles the caller's deferred; a rejected
    transform or upload does not: the rejection reaches [done], which
    rethrows it, and the deferred stays pending. *)
Remark processVersion_rejections (t : Z) (img : Img) (c : collection)
  (e : JS.value) :
  result (run (processVersion
                 (answers t (Rejected e) (Fulfilled VUndefined)
                    (Fulfilled (VResponse 200))) img) c)
  = Some (Rejected e)
  /\ (let w := run (processVersion
                      (answers t (Fulfilled (VResponse 200)) (Rejected e)
                         (Fulfilled (VResponse 200))) img) c in
      result w = None /\ uncaught w = [e])
  /\ (let w := run (processVersion
                      (answers t (Fulfilled (VResponse 200))
                         (Fulfilled VUndefined) (Rejected e)) img) c in
      result w = None /\ uncaught w = [e]).
Proof.
  unfold_chain. eval_world. repeat split; reflexivity.
Qed.

(** C1, as the code has it.  After [lock] was rejected with [no lock],
    [lock expired] or [lock timeout], [generateVersion] calls [setLock]
    and, whenever that call resolves, with [true] for a key that already
    exists as well as with the inserted document, goes on with
    [processVersion], which starts with the fetch.  Only a rejected
    [setLock] stops it: the rejection is rethrown by [done] and the
    deferred stays pending. *)
Theorem generateVersion_builds_after_setLock (o : oracle) (img : Img)
  (c : collection) (e : JS.value) :
  In e [VStr "no lock"; VStr "lock expired"; VStr "lock timeout"] ->
  let claimed :=
    setLock (now o) (findOne_err o) (insert_err o) (_lockKey img) c in
  let w := run (generateVersion o img (Rejected e)) c in
  let claim :=
    (PersistSetnx (_lockKey img) (VNum (now o + _waitTimeout)), c) in
  (forall x, snd claimed = Fulfilled x ->
     w = snd (processVersion o img (mkWorld (fst claimed) None [claim] []))
     /\ In (GetFile (originalS3Path img)) (effects w))
  /\ (forall y, snd claimed = Rejected y ->
      w = mkWorld (fst claimed) None [claim] [y]).
Proof.
  intros He claimed w claim.
  assert (Hw : w = snd (p_done (snd claimed) (fun _ => processVersion o img)
                          (mkWorld (fst claimed) None [claim] []))).
  { unfold w, claimed, claim.
    destruct He as [<-|[<-|[<-|[]]]];
    unfold run, generateVersion, persist_setLock, p_then, p_catch, bind,
      ret, emit, on_store, new_world;
    cbn [has_properties store result trace uncaught app fst snd];
    destruct (setLock (now o) (findOne_err o) (insert_err o)
                (_lockKey img) c) as [c' p];
    cbn [fst snd];
    destruct (p_done p (fun _ => processVersion o img) _); reflexivity. }
  split.
  - intros x Hx. rewrite Hx in Hw. cbn [p_done] in Hw. split; [exact Hw|].
    rewrite Hw. unfold effects.
    destruct (processVersion_shape o img
                (mkWorld (fst claimed) None [claim] []))
      as (rest & Ht & _).
    rewrite Ht. cbn [trace app map fst]. right. left. reflexivity.
  - intros y Hy. rewrite Hy in Hw. exact Hw.
Qed.

Lemma generateVersion_builds_after_setLock_witness :
  let o := answers 1000 (Fulfilled (VResponse 200)) (Fulfilled VUndefined)
             (Fulfilled (VResponse 200)) in
  In (GetFile (originalS3Path sample_img))
     (effects (run (generateVersion o sample_img
                      (Rejected (VStr "lock expired")))
                 [{| key := _lockKey sample_img; value := VNum 500 |}]))
  /\ In (GetFile (originalS3Path sample_img))
        (effects (run (generateVersion o sample_img
                         (Rejected (VStr "no lock"))) [])).
Proof.
  split.
  - exact (proj2 (proj1 (generateVersion_builds_after_setLock
                           (answers 1000 (Fulfilled (VResponse 200))
                              (Fulfilled VUndefined)
                              (Fulfilled (VResponse 200)))
                           sample_img
                           [{| key := _lockKey sample_img;
                               value := VNum 500 |}]
                           (VStr "lock expired")
                           (or_intror (or_introl eq_refl)))
                        (VBool true) eq_refl)).
  - exact (proj2 (proj1 (generateVersion_builds_after_setLock
                           (answers 1000 (Fulfilled (VResponse 200))
                              (Fulfilled VUndefined)
                              (Fulfilled (VResponse 200)))
                           sample_img []
                           (VStr "no lock") (or_introl eq_refl))
                        (VDoc (_lockKey sample_img) (VNum 3000)) eq_refl)).
Defined.

(** C1 as stated fails.  The lock key holds the expiry 500 and the clock
    reads 1000: [lock] rejects with [lock expired]; [setLock] then finds
    the key and resolves with [true], inserting nothing; and the caller
    fetches, transforms and uploads all the same. *)
Lemma generateVersion_builds_on_existing_lock :
  let o := answers 1000 (Fulfilled (VResponse 200)) (Fulfilled VUndefined)
             (Fulfilled (VResponse 200)) in
  let k := _lockKey sample_img in
  let c := [{| key := k; value := VNum 500 |}] in
  option_map promise (lock [FirstRead (get None k c) 1000 1000])
  = Some (Some (Rejected (VStr "lock expired")))
  /\ setLock 1000 None None k c = (c, Fulfilled (VBool true))
  /\ filter is_build_effect
       (effects (run (generateVersion o sample_img
                        (Rejected (VStr "lock expired"))) c))
     = [GetFile "a/b.jpg"; Manipulate;
        Upload "/tmp/5c1f"
          "d/187ef4436122d1cc2f40dc2b92f0eba0_ar_w100_h50.jpg"
          "image/jpeg"].
Proof.
  repeat split; reflexivity.
Qed.

(** What [generateVersion] resolves with after [lock] resolved, for any
    record: when the read of the version key meets no driver error and
    finds a row, the boolean [res !== null] computed from the stored
    content, [true] for every content but null, in particular for the
    string that [save] writes.  The collection is left as it was and the
    only call made is that read. *)
Lemma generateVersion_lock_absent_resolves_flag (o : oracle) (img : Img)
  (c : collection) (d : doc) :
  get_err o = None ->
  findOne (_versionKey img) c = Some d ->
  let w := run (generateVersion o img (Fulfilled (VStr "lock absent"))) c in
  result w = Some (Fulfilled (VBool (strict_neq_null (value d))))
  /\ (forall s, value d = VStr s -> result w = Some (Fulfilled (VBool true)))
  /\ store w = c
  /\ effects w = [PersistGet (_versionKey img)].
Proof.
  intros Hg Hf w. unfold w, effects. unfold_chain.
  rewrite Hg. eval_world. rewrite Hf. eval_world.
  repeat split. intros s ->. reflexivity.
Qed.

Lemma generateVersion_lock_absent_resolves_flag_witness :
  let o := answers 1000 (Fulfilled (VResponse 200)) (Fulfilled VUndefined)
             (Fulfilled (VResponse 200)) in
  let row := {| key := _versionKey sample_img;
                value := VStr (stringify_m "image/jpeg") |} in
  result (run (generateVersion o sample_img
                 (Fulfilled (VStr "lock absent"))) [row])
  = Some (Fulfilled (VBool (strict_neq_null (value row)))).
Proof.
  exact (proj1 (generateVersion_lock_absent_resolves_flag
                  (answers 1000 (Fulfilled (VResponse 200))
                     (Fulfilled VUndefined) (Fulfilled (VResponse 200)))
                  sample_img
                  [{| key := _versionKey sample_img;
                      value := VStr (stringify_m "image/jpeg") |}]
                  {| key := _versionKey sample_img;
                     value := VStr (stringify_m "image/jpeg") |}
                  eq_refl eq_refl)).
Defined.

(** C4, the code at the failing input.  The lock key disappears during
    polling, so [lock] resolves with [lock absent]; the version record
    written by [save] is in the collection and [get] reads its content;
    [generateVersion] resolves with the boolean [true], which is not that
    content: [findVersion] passes [res !== null] to [resolve] and the
    image as a second argument that [resolve] does not take, under the
    comment that the version details are returned. *)
Lemma generateVersion_resolves_true_not_metadata :
  let o := answers 1000 (Fulfilled (VResponse 200)) (Fulfilled VUndefined)
             (Fulfilled (VResponse 200)) in
  let content := VStr (stringify_m (mime sample_img)) in
  let c := [{| key := _versionKey sample_img; value := content |}] in
  option_map promise
    (lock [FirstRead (Fulfilled (VNum 3000)) 1000 1000;
           TimerFires;
           PollRead (get None (_lockKey sample_img) c) 1200])
  = Some (Some (Fulfilled (VStr "lock absent")))
  /\ get None (_versionKey sample_img) c = Fulfilled content
  /\ result (run (generateVersion o sample_img
                    (Fulfilled (VStr "lock absent"))) c)
     = Some (Fulfilled (VBool true))
  /\ VBool true <> content.
Proof.
  repeat split; try reflexivity. discriminate.
Qed.

End Build.

(* ================================================================== *)
(** * Further properties of the store operations *)
(* ================================================================== *)

Section StoreOperations.

Import Persist.
Open Scope list_scope.

Lemma findOne_none_filter (k : string) (c : collection) :
  findOne k c = None -> filter (has_key k) c = [].
Proof.
  unfold findOne. induction c as [|x r IH]; simpl; [reflexivity|].
  destruct (has_key k x); [discriminate | exact IH].
Qed.

Lemma update_first_none (k : string) (v : JS.value) (c : collection) :
  update_first k v c = None <-> findOne k c = None.
Proof.
  unfold findOne. induction c as [|x r IH]; simpl; [tauto|].
  destruct (has_key k x); [split; discriminate|].
  destruct (update_first k v r); simpl.
  - split; intros H; [discriminate H|].
    apply IH in H. discriminate H.
  - split; intros _; [apply IH|]; reflexivity.
Qed.

Lemma update_first_found (k : string) (v : JS.value) (c c' : collection) :
  update_first k v c = Some c' ->
  (exists d, findOne k c' = Some d /\ value d = v)
  /\ rows_with k c' = rows_with k c
  /\ List.length c' = List.length c
  /\ update_first k v c' = Some c'.
Proof.
  revert c'. unfold findOne, rows_with.
  induction c as [|x r IH]; simpl; intros c' H; [discriminate|].
  destruct (has_key k x) eqn:E.
  - injection H as <-. simpl.
    assert (E' : has_key k {| key := key x; value := v |} = true) by exact E.
    rewrite E'. simpl. repeat split; try reflexivity.
    eexists; split; reflexivity.
  - destruct (update_first k v r) as [r'|]; [|discriminate].
    injection H as <-. simpl. rewrite E.
    destruct (IH r' eq_refl) as (Hd & Hn & Hl & Hu).
    rewrite Hu. simpl. repeat split; auto.
Qed.

(** X1.  A value written with [set] is the value [get] reads back, and
    [set] changes what [get] reads for no other key. *)
Theorem set_then_get (k : string) (v : JS.value) (c : collection) :
  get None k (fst (set None k v c)) = Fulfilled v
  /\ (forall k', k' <> k ->
        get None k' (fst (set None k v c)) = get None k' c).
Proof.
  unfold set, get; simpl. split.
  - unfold update_upsert.
    destruct (update_first k v c) as [c'|] eqn:E.
    + destruct (update_first_found k v c c' E) as ((d & -> & Hv) & _).
      rewrite Hv. reflexivity.
    + apply update_first_none in E.
      rewrite (findOne_inserted k v c E). reflexivity.
  - intros k' Hne.
    rewrite (findOne_update_upsert_other k' v c k); [reflexivity|].
    congruence.
Qed.

Lemma set_then_get_witness :
  get None "b" (fst (set None "a" (VNum 1)
                       [{| key := "b"; value := VNum 2 |}]))
  = get None "b" [{| key := "b"; value := VNum 2 |}].
Proof.
  apply (proj2 (set_then_get "a" (VNum 1)
                  [{| key := "b"; value := VNum 2 |}]) "b").
  discriminate.
Defined.

(** X2.  [set] is idempotent, and it adds a row only for a key that has
    none: a key that already has rows keeps their number (the first one
    takes the new value), a key without rows gets exactly one. *)
Theorem set_idempotent_and_row_count (k : string) (v : JS.value)
  (c : collection) :
  let c' := fst (set None k v c) in
  fst (set None k v c') = c'
  /\ rows_with k c' = Nat.max 1 (rows_with k c)
  /\ List.length c'
     = (List.length c
        + match findOne k c with Some _ => 0 | None => 1 end)%nat.
Proof.
  unfold set; simpl. unfold update_upsert.
  destruct (update_first k v c) as [c'|] eqn:E.
  - destruct (update_first_found k v c c' E)
      as ((d & Hd & _) & Hn & Hl & Hu).
    rewrite Hu. split; [reflexivity|]. split.
    + rewrite Hn. unfold rows_with.
      assert (Hf : findOne k c <> None).
      { intros H. apply update_first_none with (v := v) in H. congruence. }
      unfold findOne in Hf. clear - Hf.
      induction c as [|x r IH]; simpl in *; [contradiction|].
      destruct (has_key k x); simpl; [lia | apply IH; exact Hf].
    + rewrite Hl.
      destruct (findOne k c) eqn:F; [lia|].
      apply update_first_none with (v := v) in F. congruence.
  - pose proof E as F. apply update_first_none in F.
    assert (Hu : update_first k v (c ++ [{| key := k; value := v |}])
                 = Some (c ++ [{| key := k; value := v |}])).
    { clear E. unfold findOne in F.
      induction c as [|x r IH]; simpl in *.
      - rewrite has_key_refl. reflexivity.
      - destruct (has_key k x); [discriminate|].
        rewrite (IH F). reflexivity. }
    rewrite Hu. split; [reflexivity|]. split.
    + unfold rows_with. rewrite filter_app, length_app.
      rewrite (findOne_none_filter k c F). simpl.
      rewrite has_key_refl. reflexivity.
    + rewrite length_app, F. simpl. reflexivity.
Qed.

Lemma set_idempotent_and_row_count_witness :
  rows_with "a"
    (fst (set None "a" (VNum 9)
            [{| key := "a"; value := VNum 1 |};
             {| key := "a"; value := VNum 2 |}]))
  = 2%nat.
Proof.
  exact (proj1 (proj2 (set_idempotent_and_row_count "a" (VNum 9)
                         [{| key := "a"; value := VNum 1 |};
                          {| key := "a"; value := VNum 2 |}]))).
Defined.

Lemma findOne_remove_in_other (k : string) (ks : list string)
  (c : collection) :
  ~ In k ks -> findOne k (remove_in ks c) = findOne k c.
Proof.
  intros Hn. unfold findOne, remove_in.
  induction c as [|x r IH]; simpl; [reflexivity|].
  destruct (has_key k x) eqn:E.
  - assert (Hk : key_in ks x = false).
    { unfold key_in. apply not_true_is_false. intros H.
      apply existsb_exists in H as (y & Hy & Heq).
      apply String.eqb_eq in Heq. apply String.eqb_eq in E.
      subst. contradiction. }
    rewrite Hk. simpl. rewrite E. reflexivity.
  - destruct (key_in ks x); simpl; [exact IH|].
    rewrite E. exact IH.
Qed.

Lemma findOne_remove_in_listed (k : string) (ks : list string)
  (c : collection) :
  In k ks -> findOne k (remove_in ks c) = None.
Proof.
  intros Hin. unfold findOne, remove_in.
  induction c as [|x r IH]; simpl; [reflexivity|].
  destruct (key_in ks x) eqn:Hk; simpl; [exact IH|].
  destruct (has_key k x) eqn:E; [|exact IH].
  exfalso. apply String.eqb_eq in E.
  assert (Ht : key_in ks x = true).
  { unfold key_in. apply existsb_exists. exists k. split; [exact Hin|].
    apply String.eqb_eq. exact E. }
  congruence.
Qed.

(** X3.  After [del], [get] finds none of the listed keys and reads every
    other key as before; the call resolves, also for keys that have no
    row; and when no listed key has a row (a missing key, an empty list)
    the collection is left as it was. *)
Theorem del_removes_listed_keys (keys : keysArg) (c : collection) :
  let c' := fst (del None keys c) in
  (forall k, In k (keys_of keys) -> get None k c' = Fulfilled VNull)
  /\ (forall k, ~ In k (keys_of keys) -> get None k c' = get None k c)
  /\ (exists result, snd (del None keys c) = Fulfilled result)
  /\ ((forall k, In k (keys_of keys) -> findOne k c = None) -> c' = c).
Proof.
  unfold del, get; simpl. repeat split.
  - intros k Hin. rewrite findOne_remove_in_listed; [reflexivity | exact Hin].
  - intros k Hn. rewrite findOne_remove_in_other; [reflexivity | exact Hn].
  - eexists. reflexivity.
  - intros Hnone. unfold remove_in.
    induction c as [|x r IH]; simpl; [reflexivity|].
    assert (Hx : key_in (keys_of keys) x = false).
    { unfold key_in. apply not_true_is_false. intros H.
      apply existsb_exists in H as (y & Hy & Heq).
      apply String.eqb_eq in Heq.
      specialize (Hnone y Hy). unfold findOne in Hnone. simpl in Hnone.
      unfold has_key in Hnone at 1. rewrite Heq, String.eqb_refl in Hnone.
      discriminate. }
    rewrite Hx. simpl. f_equal. apply IH.
    intros k Hk. specialize (Hnone k Hk).
    unfold findOne in *. simpl in Hnone.
    destruct (has_key k x); [discriminate | exact Hnone].
Qed.

Lemma del_removes_listed_keys_witness :
  get None "a"
    (fst (del None (ManyKeys ["a"; "b"])
            [{| key := "a"; value := VNum 1 |};
             {| key := "c"; value := VNum 3 |};
             {| key := "a"; value := VNum 2 |}]))
  = Fulfilled VNull
  /\ fst (del None (OneKey "z") [{| key := "c"; value := VNum 3 |}])
     = [{| key := "c"; value := VNum 3 |}].
Proof.
  split.
  - apply (proj1 (del_removes_listed_keys (ManyKeys ["a"; "b"])
                    [{| key := "a"; value := VNum 1 |};
                     {| key := "c"; value := VNum 3 |};
                     {| key := "a"; value := VNum 2 |}]) "a").
    left. reflexivity.
  - apply (proj2 (proj2 (proj2 (del_removes_listed_keys (OneKey "z")
                    [{| key := "c"; value := VNum 3 |}])))).
    intros k [<-|[]]. reflexivity.
Defined.

(** X4.  [setnx] is first writer wins: after it, [get] reads the value the
    key had before when it had one, and the new value otherwise; every
    later [setnx] on the key resolves with [true] and changes nothing;
    and what [get] reads for the other keys is unchanged. *)
Theorem setnx_first_writer_wins (k : string) (v : JS.value)
  (c : collection) :
  let c' := fst (setnx None None k v c) in
  get None k c'
  = Fulfilled match findOne k c with Some d => value d | None => v end
  /\ (forall v', setnx None None k v' c' = (c', Fulfilled (VBool true)))
  /\ (forall k', k' <> k -> get None k' c' = get None k' c).
Proof.
  unfold setnx, get; simpl.
  destruct (findOne k c) as [d|] eqn:F; simpl.
  - rewrite F. repeat split; reflexivity.
  - rewrite (findOne_inserted k v c F). simpl. repeat split; try reflexivity.
    intros k' Hne. rewrite findOne_app.
    destruct (findOne k' c); [reflexivity|].
    unfold has_key; simpl.
    destruct (String.eqb_spec k k'); [congruence | reflexivity].
Qed.

Lemma setnx_first_writer_wins_witness :
  get None "b"
    (fst (setnx None None "a" (VNum 1) [{| key := "b"; value := VNum 2 |}]))
  = get None "b" [{| key := "b"; value := VNum 2 |}].
Proof.
  apply (proj2 (proj2 (setnx_first_writer_wins "a" (VNum 1)
                         [{| key := "b"; value := VNum 2 |}])) "b").
  discriminate.
Defined.

Lemma findOne_app_found (k : string) (d : doc) (c added : collection) :
  findOne k c = Some d -> findOne k (c ++ added) = Some d.
Proof.
  unfold findOne. induction c as [|x r IH]; simpl; [discriminate|].
  destruct (has_key k x); [trivial | exact IH].
Qed.

Lemma setnx_step_appends (e : option JS.value) (t : setnx_task)
  (c : collection) :
  exists added, fst (setnx_step e t c) = c ++ added.
Proof.
  destruct t as [k v|k v|p]; simpl.
  - destruct e; [exists []; simpl; now rewrite app_nil_r|].
    destruct (findOne k c); exists []; simpl; now rewrite app_nil_r.
  - destruct e; [exists []; simpl; now rewrite app_nil_r|].
    eexists; reflexivity.
  - exists []. simpl. now rewrite app_nil_r.
Qed.

(** X5.  Whatever the calls of [setnx] in flight and however their driver
    callbacks interleave, the rows that were in the collection stay, in
    place and unchanged, and new rows are only appended: a key that had a
    row is read by [get] with the same value afterwards. *)
Theorem setnx_schedule_keeps_rows (sched : list nat)
  (pool : list setnx_task) (c : collection) :
  (exists added, fst (run_schedule sched (c, pool)) = c ++ added)
  /\ (forall k d,
        findOne k c = Some d ->
        get None k (fst (run_schedule sched (c, pool)))
        = Fulfilled (value d)).
Proof.
  assert (H : exists added, fst (run_schedule sched (c, pool)) = c ++ added).
  { unfold run_schedule. revert c pool.
    induction sched as [|i r IH]; intros c pool; cbn [fold_left].
    - exists []. simpl. now rewrite app_nil_r.
    - assert (Hs : exists a1, fst (pool_step i (c, pool)) = c ++ a1).
      { unfold pool_step.
        destruct (nth_error pool i) as [t|];
          [|exists []; simpl; now rewrite app_nil_r].
        destruct (setnx_step_appends None t c) as (a1 & Ha).
        destruct (setnx_step None t c) as [c1 t1]. exists a1. exact Ha. }
      destruct Hs as (a1 & Ha).
      destruct (pool_step i (c, pool)) as [c1 p1]. simpl in Ha. subst c1.
      destruct (IH (c ++ a1) p1) as (a2 & Ha2).
      exists (a1 ++ a2). rewrite app_assoc. exact Ha2. }
  split; [exact H|].
  intros k d Hd. destruct H as (added & ->).
  unfold get. rewrite (findOne_app_found k d c added Hd). reflexivity.
Qed.

Lemma setnx_schedule_keeps_rows_witness :
  get None "k"
    (fst (run_schedule [0; 1; 0; 1]%nat
            ([{| key := "k"; value := VNum 7 |}],
             [AwaitFindOne "k" (VNum 1); AwaitFindOne "j" (VNum 2)])))
  = Fulfilled (VNum 7).
Proof.
  exact (proj2 (setnx_schedule_keeps_rows [0; 1; 0; 1]%nat
                  [AwaitFindOne "k" (VNum 1); AwaitFindOne "j" (VNum 2)]
                  [{| key := "k"; value := VNum 7 |}])
               "k" {| key := "k"; value := VNum 7 |} eq_refl).
Defined.

End StoreOperations.

(* ================================================================== *)
(** * Further properties of the lock *)
(* ================================================================== *)

Section LockOperations.

Import Persist.
Open Scope list_scope.

(** Numbers survive the conversion to a string and [parseInt]. *)
Lemma digits_acc (u : Decimal.uint) :
  forall p, digits (NilEmpty.string_of_uint u) (Some (Z.pos p))
            = Some (Z.pos (Pos.of_uint_acc u p)).
Proof.
  induction u; intros p;
    cbn [NilEmpty.string_of_uint digits Pos.of_uint_acc];
    [reflexivity | ..];
    match goal with
    | |- context [digit ?a] =>
        let d := eval vm_compute in (digit a) in change (digit a) with d
    end; cbv beta iota;
    rewrite <- IHu; do 2 f_equal; lia.
Qed.

Lemma digits_zero (u : Decimal.uint) :
  digits (NilEmpty.string_of_uint u) (Some 0)
  = Some (Z.of_N (Pos.of_uint u)).
Proof.
  induction u; cbn [NilEmpty.string_of_uint digits Pos.of_uint];
    [reflexivity | ..];
    match goal with
    | |- context [digit ?a] =>
        let d := eval vm_compute in (digit a) in change (digit a) with d
    end; cbv beta iota;
    first [ exact IHu | apply digits_acc ].
Qed.

Lemma digits_unsigned (u : Decimal.uint) :
  u <> Decimal.Nil ->
  digits (NilEmpty.string_of_uint u) None = Some (Z.of_N (Pos.of_uint u)).
Proof.
  intros Hn. rewrite <- digits_zero.
  destruct u; try contradiction; reflexivity.
Qed.

Lemma parse_unsigned (u : Decimal.uint) :
  u <> Decimal.Nil ->
  (let s := trimStart (NilEmpty.string_of_uint u) in
   match s with
   | String "-"%char r => option_map Z.opp (digits r None)
   | String "+"%char r => digits r None
   | _ => digits s None
   end) = Some (Z.of_N (Pos.of_uint u)).
Proof.
  intros Hn. rewrite <- digits_zero.
  destruct u; try contradiction; reflexivity.
Qed.

Lemma nilzero_nonnil (u : Decimal.uint) :
  u <> Decimal.Nil -> NilZero.string_of_uint u = NilEmpty.string_of_uint u.
Proof. destruct u; [contradiction | reflexivity ..]. Qed.

Lemma parseInt10_num (z : Z) : parseInt10 (VNum z) = Some z.
Proof.
  unfold parseInt10, toString, string_of_Z.
  destruct z as [|p|p]; [reflexivity | |];
    cbn [Z.to_int NilZero.string_of_int];
    pose proof (Unsigned.to_uint_nonnil p) as Hn;
    rewrite (nilzero_nonnil _ Hn).
  - pose proof (parse_unsigned _ Hn) as H.
    rewrite Unsigned.of_to in H. exact H.
  - change (trimStart (String "-" (NilEmpty.string_of_uint (Pos.to_uint p))))
      with (String "-" (NilEmpty.string_of_uint (Pos.to_uint p))).
    cbv beta iota zeta.
    rewrite (digits_unsigned _ Hn), Unsigned.of_to. reflexivity.
Qed.

(** X6.  [setLock] and [lock] agree on the lease.  On a key without a row,
    [setLock] at time [t] stores [t + _waitTimeout]; a call of [lock]
    whose first read sees that row rejects with [lock expired], without
    starting the timer, exactly when its clock is past that time, and
    otherwise starts polling with its own deadline. *)
Theorem setLock_then_lock (k : string) (c : collection)
  (t now_check now_start : Z) :
  findOne k c = None ->
  let c' := fst (setLock t None None k c) in
  get None k c' = Fulfilled (VNum (t + _waitTimeout))
  /\ lock [FirstRead (get None k c') now_check now_start]
     = Some (if t + _waitTimeout <? now_check
             then mkLock (Some (Rejected (VStr "lock expired")))
                         NotStarted None 0 0 true
             else mkLock None Active (Some (now_start + _waitTimeout))
                         0 0 true).
Proof.
  intros H. unfold setLock, setnx. rewrite H. cbn [insert fst].
  unfold get. rewrite (findOne_inserted k _ c H). cbn [value].
  split; [reflexivity|].
  unfold lock. cbn [lock_run lock_step lock_init first_read_done].
  unfold on_first_read. cbn [after_catch strict_neq_null].
  unfold parseInt_lt. rewrite parseInt10_num.
  destruct (t + _waitTimeout <? now_check); reflexivity.
Qed.

Lemma setLock_then_lock_witness :
  lock [FirstRead
          (get None "k" (fst (setLock 1000 None None "k" []))) 3001 3001]
  = Some (mkLock (Some (Rejected (VStr "lock expired"))) NotStarted None
                 0 0 true).
Proof.
  exact (proj2 (setLock_then_lock "k" [] 1000 3001 3001 eq_refl)).
Defined.

Lemma rejected_at_once (st : lockState) :
  lockTimer st = NotStarted -> reads_in_flight st = 0%nat ->
  first_read_done st = true ->
  forall ev, lock_step st ev = None.
Proof.
  intros Ht Hr Hd [r a b| |r now]; simpl.
  - now rewrite Hd.
  - now rewrite Ht.
  - now rewrite Hr.
Qed.

(** X7.  A call of [lock] that is turned down by its first read is over:
    on a key without a row (never written, or just removed by [del]) it
    rejects with [no lock], on a row whose expiry parses to a time before
    the clock it rejects with [lock expired]; in both cases no timer is
    started and no further event of the call can occur. *)
Theorem lock_turned_down_at_first_read (k : string) (c : collection)
  (t1 t2 : Z) :
  (findOne k c = None ->
   exists st,
     lock [FirstRead (get None k c) t1 t2] = Some st
     /\ promise st = Some (Rejected (VStr "no lock"))
     /\ lockTimer st = NotStarted
     /\ forall ev, lock_step st ev = None)
  /\ (forall keys c0,
        In k (keys_of keys) -> c = fst (del None keys c0) ->
        option_map promise (lock [FirstRead (get None k c) t1 t2])
        = Some (Some (Rejected (VStr "no lock"))))
  /\ (forall d,
        findOne k c = Some d -> parseInt_lt (value d) t1 = true ->
        exists st,
          lock [FirstRead (get None k c) t1 t2] = Some st
          /\ promise st = Some (Rejected (VStr "lock expired"))
          /\ lockTimer st = NotStarted
          /\ forall ev, lock_step st ev = None).
Proof.
  split; [|split].
  - intros H. unfold get. rewrite H.
    eexists. split; [reflexivity|]. repeat split.
    apply rejected_at_once; reflexivity.
  - intros keys c0 Hin ->. unfold get, del. cbn [fst].
    rewrite (findOne_remove_in_listed k _ c0 Hin). reflexivity.
  - intros d H Hexp. unfold get. rewrite H.
    unfold lock. cbn [lock_run lock_step lock_init first_read_done].
    unfold on_first_read. cbn [after_catch]. rewrite Hexp.
    destruct (value d); try discriminate Hexp;
      (eexists; split; [reflexivity|]; repeat split;
       apply rejected_at_once; reflexivity).
Qed.

Lemma lock_turned_down_at_first_read_witness :
  option_map promise
    (lock [FirstRead (get None "k" [{| key := "k"; value := VNum 500 |}])
             1000 1000])
  = Some (Some (Rejected (VStr "lock expired")))
  /\ option_map promise (lock [FirstRead (get None "k" []) 1000 1000])
     = Some (Some (Rejected (VStr "no lock"))).
Proof.
  split.
  - destruct (proj2 (proj2 (lock_turned_down_at_first_read "k"
                [{| key := "k"; value := VNum 500 |}] 1000 1000))
                {| key := "k"; value := VNum 500 |} eq_refl eq_refl)
      as (st & Hl & Hp & _).
    rewrite Hl. simpl. rewrite Hp. reflexivity.
  - destruct (proj1 (lock_turned_down_at_first_read "k" [] 1000 1000)
                eq_refl)
      as (st & Hl & Hp & _).
    rewrite Hl. simpl. rewrite Hp. reflexivity.
Defined.

Lemma lock_run_app (evs1 evs2 : list lockEvent) :
  forall st,
    lock_run st (evs1 ++ evs2)
    = match lock_run st evs1 with
      | Some st' => lock_run st' evs2
      | None => None
      end.
Proof.
  induction evs1 as [|ev r IH]; simpl; intros st; [reflexivity|].
  destruct (lock_step st ev); [apply IH | reflexivity].
Qed.

Lemma lock_outcome_settled (first : option JS.value) (d : deferred)
  (x : JS.value) :
  lock_outcome first d ->
  (lock_outcome first (Some (Fulfilled x)) ->
   lock_outcome first (resolve x d))
  /\ (lock_outcome first (Some (Rejected x)) ->
      lock_outcome first (reject x d)).
Proof. destruct d; simpl; auto. Qed.

Lemma lock_step_outcome (first : option JS.value) (st st' : lockState)
  (ev : lockEvent) :
  first_read_done st = true ->
  lock_outcome first (promise st) ->
  lock_step st ev = Some st' ->
  lock_outcome first (promise st').
Proof.
  intros Hd Ho Hstep.
  destruct ev as [r a b| |r now]; simpl in Hstep.
  - rewrite Hd in Hstep. discriminate.
  - destruct (lockTimer st); try discriminate.
    injection Hstep as <-. exact Ho.
  - destruct (reads_in_flight st); [discriminate|].
    injection Hstep as <-. unfold on_poll_read.
    destruct r as [x|e]; simpl.
    + destruct (truthy x); simpl.
      * destruct (past now (expiration st)); simpl; [|exact Ho].
        apply lock_outcome_settled; [exact Ho|]. simpl. tauto.
      * apply lock_outcome_settled; [exact Ho|]. reflexivity.
    + apply lock_outcome_settled; [|reflexivity].
      apply lock_outcome_settled; [exact Ho|]. simpl. tauto.
Qed.

Lemma lock_run_outcome (first : option JS.value) (evs : list lockEvent) :
  forall st st',
    first_read_done st = true ->
    lock_outcome first (promise st) ->
    lock_run st evs = Some st' ->
    lock_outcome first (promise st').
Proof.
  induction evs as [|ev r IH]; simpl; intros st st' Hd Ho Hrun.
  - injection Hrun as <-. exact Ho.
  - destruct (lock_step st ev) as [s1|] eqn:E; [|discriminate].
    apply (IH s1 st'); [| |exact Hrun].
    + eapply lock_step_after_first_read; [right|]; eassumption.
    + eapply lock_step_outcome; eassumption.
Qed.

Lemma lock_step_keeps_settled (st st' : lockState) (ev : lockEvent)
  (p : settled) :
  promise st = Some p -> lock_step st ev = Some st' ->
  promise st' = Some p.
Proof.
  intros Hp Hstep.
  destruct ev as [r a b| |r now]; simpl in Hstep.
  - destruct (first_read_done st); [discriminate|].
    injection Hstep as <-. unfold on_first_read.
    destruct r as [x|e]; simpl.
    + destruct (strict_neq_null x); simpl; [|now rewrite Hp].
      destruct (parseInt_lt x a); simpl; now rewrite Hp.
    + rewrite Hp. reflexivity.
  - destruct (lockTimer st); try discriminate.
    injection Hstep as <-. exact Hp.
  - destruct (reads_in_flight st); [discriminate|].
    injection Hstep as <-. unfold on_poll_read.
    destruct r as [x|e]; simpl.
    + destruct (truthy x); simpl; [|now rewrite Hp].
      destruct (past now (expiration st)); simpl; now rewrite Hp.
    + rewrite Hp. reflexivity.
Qed.

(** X8.  In every run of [lock] the promise is pending, resolved with
    [lock absent], or rejected with [no lock], [lock expired],
    [lock error], [lock timeout] or the error of a failed first read; and
    once it is settled, no later event of the call changes its outcome. *)
Theorem lock_outcomes (evs evs' : list lockEvent) (st st' : lockState) :
  lock evs = Some st ->
  lock_outcome (first_read_error evs) (promise st)
  /\ (lock (evs ++ evs') = Some st' ->
      forall p, promise st = Some p -> promise st' = Some p).
Proof.
  intros Hrun. split.
  - unfold lock in Hrun. destruct evs as [|ev rest].
    + injection Hrun as <-. exact I.
    + simpl in Hrun.
      destruct ev as [r a b| |r now]; simpl in Hrun; try discriminate.
      revert Hrun. apply lock_run_outcome.
      * apply on_first_read_done.
      * unfold on_first_read.
        destruct r as [x|e]; simpl.
        -- destruct (strict_neq_null x); simpl; [|tauto].
           destruct (parseInt_lt x a); simpl; tauto.
        -- right. reflexivity.
  - unfold lock in *. rewrite lock_run_app, Hrun.
    clear Hrun. revert st.
    induction evs' as [|ev r IH]; simpl; intros st Hrun p Hp.
    + injection Hrun as <-. exact Hp.
    + destruct (lock_step st ev) as [s1|] eqn:E; [|discriminate].
      apply (IH s1 Hrun). eapply lock_step_keeps_settled; eassumption.
Qed.

Lemma lock_outcomes_witness :
  lock_outcome None (Some (Fulfilled (VStr "lock absent"))).
Proof.
  exact (proj1 (lock_outcomes
                  [FirstRead (Fulfilled (VNum 5000)) 1000 1000; TimerFires;
                   PollRead (Fulfilled VNull) 1200]
                  []
                  (mkLock (Some (Fulfilled (VStr "lock absent"))) Cleared
                     (Some 3000) 0 1 true)
                  (mkLock (Some (Fulfilled (VStr "lock absent"))) Cleared
                     (Some 3000) 0 1 true)
                  eq_refl)).
Defined.

Lemma lock_step_timer_has_deadline (st st' : lockState) (ev : lockEvent) :
  timer_has_deadline st -> lock_step st ev = Some st' ->
  timer_has_deadline st'.
Proof.
  intros [Hn Hs] Hstep. unfold timer_has_deadline.
  destruct ev as [r a b| |r now]; simpl in Hstep.
  - destruct (first_read_done st); [discriminate|].
    injection Hstep as <-. unfold on_first_read.
    destruct r as [x|e]; simpl.
    + destruct (strict_neq_null x); simpl; [|split; assumption].
      destruct (parseInt_lt x a); simpl; [split; assumption|].
      split; [discriminate | intros _; discriminate].
    + split; [discriminate | intros _; discriminate].
  - destruct (lockTimer st) eqn:T; try discriminate.
    injection Hstep as <-. simpl. split; [discriminate|].
    intros _. apply Hs. discriminate.
  - destruct (reads_in_flight st) as [|n] eqn:R; [discriminate|].
    injection Hstep as <-.
    assert (Hstarted : lockTimer st <> NotStarted).
    { intros H. apply Hn in H. discriminate. }
    unfold on_poll_read.
    destruct r as [x|e]; simpl.
    + destruct (truthy x); simpl.
      * destruct (past now (expiration st)); simpl;
          (split; [intros H; try discriminate H; contradiction
                  | intros _; apply Hs; exact Hstarted]).
      * split; [discriminate | intros _; apply Hs; exact Hstarted].
    + split; [discriminate | intros _; apply Hs; exact Hstarted].
Qed.

Lemma lock_run_timer_has_deadline (evs : list lockEvent) :
  forall st st',
    timer_has_deadline st -> lock_run st evs = Some st' ->
    timer_has_deadline st'.
Proof.
  induction evs as [|ev r IH]; simpl; intros st st' Hinv Hrun.
  - injection Hrun as <-. exact Hinv.
  - destruct (lock_step st ev) as [s1|] eqn:E; [|discriminate].
    apply (IH s1 st'); [|exact Hrun].
    eapply lock_step_timer_has_deadline; eassumption.
Qed.

(** X9.  The wait is bounded by the deadline.  Whenever a read issued by
    the timer completes, the call has a deadline, the read leaves it
    unchanged, and a read that completes after it ends the loop whatever
    it returns (an error, no value, or the key still held): the timer is
    cleared and the promise settled. *)
Theorem lock_read_past_deadline_ends_loop (evs : list lockEvent)
  (st st' : lockState) (r : settled) (now : Z) :
  lock evs = Some st ->
  lock_step st (PollRead r now) = Some st' ->
  exists deadline,
    expiration st = Some deadline
    /\ expiration st' = Some deadline
    /\ (now > deadline ->
        lockTimer st' = Cleared /\ is_settled (promise st') = true).
Proof.
  intros Hrun Hstep.
  assert (Hinv : timer_has_deadline st).
  { eapply lock_run_timer_has_deadline; [|exact Hrun].
    split; [reflexivity | intros H; contradiction]. }
  destruct Hinv as [Hn Hs]. simpl in Hstep.
  destruct (reads_in_flight st) as [|n] eqn:R; [discriminate|].
  injection Hstep as <-.
  destruct (expiration st) as [e|] eqn:E.
  2:{ exfalso. apply Hs; [|reflexivity].
      intros H. apply Hn in H. discriminate. }
  exists e. split; [reflexivity|].
  pose proof (on_poll_read_frame r now
    (mkLock (promise st) (lockTimer st) (Some e) n
            (reads_issued st) (first_read_done st))) as F.
  simpl in F. destruct F as (-> & _).
  split; [reflexivity|].
  intros Hgt. apply Z.gtb_gt in Hgt.
  unfold on_poll_read. destruct r as [x|err]; simpl.
  - rewrite Hgt. destruct (truthy x); simpl;
      split; auto using is_settled_reject, is_settled_resolve.
  - split; auto using is_settled_resolve.
Qed.

Lemma lock_read_past_deadline_ends_loop_witness :
  exists deadline,
    Some 3000 = Some deadline
    /\ (4000 > deadline ->
        lockTimer (mkLock (Some (Rejected (VStr "lock timeout"))) Cleared
                     (Some 3000) 0 1 true) = Cleared).
Proof.
  destruct (lock_read_past_deadline_ends_loop
              [FirstRead (Fulfilled (VNum 5000)) 1000 1000; TimerFires]
              (mkLock None Active (Some 3000) 1 1 true)
              (mkLock (Some (Rejected (VStr "lock timeout"))) Cleared
                 (Some 3000) 0 1 true)
              (Fulfilled (VNum 5000)) 4000 eq_refl eq_refl)
    as (deadline & H1 & _ & H2).
  exists deadline. split; [exact H1 | intros H; exact (proj1 (H2 H))].
Defined.

Lemma lock_settled_timer_off_witness :
  lockTimer (mkLock (Some (Fulfilled (VStr "lock absent"))) Cleared
               (Some 3000) 0 1 true) <> Active.
Proof.
  exact (lock_settled_timer_off (VNum 5000) 1000 1000
           [TimerFires; PollRead (Fulfilled VNull) 1200]
           (mkLock (Some (Fulfilled (VStr "lock absent"))) Cleared
              (Some 3000) 0 1 true)
           eq_refl eq_refl).
Defined.

End LockOperations.

(* ================================================================== *)
(** * Further properties of the keys and paths *)
(* ================================================================== *)

Section KeysAndPaths.

Import Image.

Lemma append_assoc (a b c : string) : ((a ++ b) ++ c = a ++ (b ++ c))%string.
Proof. induction a as [|x r IH]; simpl; [reflexivity | now rewrite IH]. Qed.

Lemma append_inj_l (a b c : string) : (a ++ b = a ++ c)%string -> b = c.
Proof.
  induction a as [|x r IH]; simpl; intros H; [exact H|].
  injection H as H. exact (IH H).
Qed.

Lemma append_inj_r (a b c : string) : (a ++ c = b ++ c)%string -> a = b.
Proof.
  revert b. induction a as [|x r IH]; intros b H.
  - destruct b as [|y b']; [reflexivity|].
    apply (f_equal String.length) in H. simpl in H.
    rewrite length_append in H. lia.
  - destruct b as [|y b'].
    + apply (f_equal String.length) in H. simpl in H.
      rewrite length_append in H. lia.
    + simpl in H. injection H as -> H. f_equal. exact (IH _ H).
Qed.

Lemma lower_ascii_idem (a : ascii) : lower_ascii (lower_ascii a) = lower_ascii a.
Proof. destruct a as [[] [] [] [] [] [] [] []]; reflexivity. Qed.

Lemma toLowerCase_idem (s : string) : toLowerCase (toLowerCase s) = toLowerCase s.
Proof.
  induction s as [|a r IH]; simpl; [reflexivity|].
  now rewrite lower_ascii_idem, IH.
Qed.

(** The options string is empty unless there is an action. *)
Lemma optionsString_no_action (img : Img) :
  has_action (options img) = false -> _optionsString img = "".
Proof.
  unfold has_action, _optionsString.
  destruct (action (options img)); [discriminate|].
  destruct (json img); reflexivity.
Qed.

Lemma versionKey_normal (img : Img) :
  _versionKey img
  = redisNamespace img ++ ":" ++ env img ++ ":" ++ uuid img
    ++ _optionsString img.
Proof.
  unfold _versionKey, _key.
  destruct (has_action (options img)) eqn:E; simpl.
  - repeat (rewrite append_assoc; simpl). reflexivity.
  - rewrite (optionsString_no_action img E), append_empty_r. reflexivity.
Qed.

Lemma lockKey_normal (img : Img) :
  _lockKey img
  = redisNamespace img ++ ":lock:" ++ env img ++ ":" ++ uuid img
    ++ _optionsString img.
Proof.
  unfold _lockKey.
  destruct (has_action (options img)) eqn:E; simpl.
  - repeat (rewrite append_assoc; simpl). reflexivity.
  - rewrite (optionsString_no_action img E), append_empty_r. reflexivity.
Qed.

Lemma s3Path_normal (img : Img) :
  s3Path img
  = env img ++ "/" ++ (uuid img ++ _optionsString img)
    ++ "." ++ toLowerCase (ext img).
Proof.
  unfold s3Path, filename. simpl.
  repeat (rewrite append_assoc; simpl). reflexivity.
Qed.

(** X10.  An extension is valid exactly when the constructor gives the
    image a mime type other than the fallback [application/octet-stream];
    both tests ignore the case of the extension. *)
Theorem validExtension_iff_known_mime (md5 : string -> string)
  (tmp : string) (penv : processEnv) (parsed : parsedRequest) :
  let img := new_Img md5 tmp penv parsed in
  (validExtension img = true <-> mime img <> "application/octet-stream")
  /\ parseFormat (toLowerCase (parsed_ext parsed))
     = parseFormat (parsed_ext parsed)
  /\ (forall img',
        toLowerCase (ext img') = toLowerCase (ext img) ->
        validExtension img' = validExtension img).
Proof.
  cbn zeta. split; [|split].
  - unfold validExtension. cbn [new_Img ext mime].
    unfold parseFormat. cbv zeta.
    generalize (toLowerCase (parsed_ext parsed)). intros f.
    cbn [indexOf allowedFormats].
    rewrite (String.eqb_sym "jpg" f), (String.eqb_sym "jpeg" f),
      (String.eqb_sym "png" f), (String.eqb_sym "gif" f).
    destruct (String.eqb f "jpeg"), (String.eqb f "jpg"),
      (String.eqb f "png"), (String.eqb f "gif"); simpl;
      split; intros H; try reflexivity; try discriminate;
      exfalso; apply H; reflexivity.
  - unfold parseFormat. rewrite toLowerCase_idem. reflexivity.
  - intros img' H. unfold validExtension. rewrite H. reflexivity.
Qed.

Lemma validExtension_iff_known_mime_witness :
  validExtension sample_img = true
  /\ validExtension
       {| env := "d"; redisNamespace := "n"; dir := ""; file := "b";
          ext := "JPG"; mime := "image/jpeg";
          options := {| action := None; width := None; height := None;
                        cropX := None; cropY := None |};
          json := false; uuid := "u"; tmpFile := "/tmp/t" |}
     = validExtension sample_img.
Proof.
  pose proof (validExtension_iff_known_mime
                (fun _ => "187ef4436122d1cc2f40dc2b92f0eba0") "/tmp/5c1f"
                {| NODE_ENV := None; REDIS_NAMESPACE := None |}
                {| parsed_dir := "a"; parsed_filename := "b";
                   parsed_ext := "jpg";
                   parsed_options :=
                     {| action := Some "resize"; width := Some (VNum 100);
                        height := Some (VNum 50); cropX := None;
                        cropY := None |};
                   parsed_json := false |}) as (Hv & _ & Hc).
  split.
  - apply Hv. discriminate.
  - apply Hc. reflexivity.
Defined.

Lemma origKey_normal (img : Img) :
  _origKey img
  = redisNamespace img ++ ":" ++ env img ++ ":" ++ uuid img ++ ":orig".
Proof.
  unfold _origKey, _key. simpl.
  repeat (rewrite append_assoc; simpl). reflexivity.
Qed.

Lemma optionsString_not_orig (img : Img) : _optionsString img <> ":orig".
Proof.
  unfold _optionsString.
  destruct (json img); [discriminate|].
  destruct (action (options img)); simpl; discriminate.
Qed.

Lemma env_single_char (md5 : string -> string) (tmp : string)
  (penv : processEnv) (parsed : parsedRequest) :
  exists ch, env (new_Img md5 tmp penv parsed) = String ch "".
Proof.
  cbn [new_Img env]. unfold or_string.
  destruct (NODE_ENV penv) as [s|]; [|eexists; reflexivity].
  destruct (String.eqb_spec s ""); [eexists; reflexivity|].
  destruct s as [|a r]; [contradiction|]. eexists; reflexivity.
Qed.

Lemma versionKey_neq_origKey (img : Img) : _versionKey img <> _origKey img.
Proof.
  rewrite versionKey_normal, origKey_normal. intros H.
  apply append_inj_l in H. simpl in H. injection H as H.
  apply append_inj_l in H. simpl in H. injection H as H.
  apply append_inj_l in H.
  exact (optionsString_not_orig _ H).
Qed.

Lemma origKey_neq_lockKey (md5 : string -> string) (tmp : string)
  (penv : processEnv) (parsed : parsedRequest) :
  _origKey (new_Img md5 tmp penv parsed)
  <> _lockKey (new_Img md5 tmp penv parsed).
Proof.
  rewrite origKey_normal, lockKey_normal.
  destruct (env_single_char md5 tmp penv parsed) as (ch & ->).
  intros H. apply append_inj_l in H. simpl in H.
  injection H as _ H. discriminate H.
Qed.

(** X11.  The three keys of an image built by the constructor, for the
    version record, for the parameters of the original and for the lock,
    are pairwise different, whatever the namespace, the environment, the
    file and the options. *)
Theorem keys_pairwise_distinct (md5 : string -> string) (tmp : string)
  (penv : processEnv) (parsed : parsedRequest) :
  let img := new_Img md5 tmp penv parsed in
  _versionKey img <> _lockKey img
  /\ _versionKey img <> _origKey img
  /\ _origKey img <> _lockKey img.
Proof.
  cbn zeta. split; [apply versionKey_neq_lockKey|]. split.
  - apply versionKey_neq_origKey.
  - apply origKey_neq_lockKey.
Qed.

Lemma key_suffix_eq (p a b : string) :
  (p ++ a = p ++ b)%string <-> a = b.
Proof. split; [apply append_inj_l | now intros ->]. Qed.

(** X12.  The lock, the version record and the stored object of a request
    are keyed by the same thing.  For two images in the same namespace and
    environment, the lock keys are equal exactly when the version keys
    are; and when the extensions agree up to case, the version keys are
    equal exactly when the S3 paths are. *)
Theorem keys_and_path_agree (i1 i2 : Img) :
  redisNamespace i1 = redisNamespace i2 ->
  env i1 = env i2 ->
  (_lockKey i1 = _lockKey i2 <-> _versionKey i1 = _versionKey i2)
  /\ (toLowerCase (ext i1) = toLowerCase (ext i2) ->
      (_versionKey i1 = _versionKey i2 <-> s3Path i1 = s3Path i2)).
Proof.
  intros Hn He.
  assert (Hv : _versionKey i1 = _versionKey i2
               <-> uuid i1 ++ _optionsString i1
                   = uuid i2 ++ _optionsString i2).
  { rewrite !versionKey_normal, Hn, He.
    rewrite key_suffix_eq. simpl.
    split; [intros H; injection H as H | intros H; f_equal].
    - apply append_inj_l in H. simpl in H. injection H as H. exact H.
    - apply key_suffix_eq. simpl. f_equal. exact H. }
  assert (Hl : _lockKey i1 = _lockKey i2
               <-> uuid i1 ++ _optionsString i1
                   = uuid i2 ++ _optionsString i2).
  { rewrite !lockKey_normal, Hn, He.
    rewrite key_suffix_eq. simpl.
    split; [intros H; injection H as H | intros H; do 6 f_equal].
    - apply append_inj_l in H. simpl in H. injection H as H. exact H.
    - apply key_suffix_eq. simpl. f_equal. exact H. }
  split; [rewrite Hl, Hv; reflexivity|].
  intros Hx. rewrite Hv, !s3Path_normal, He, Hx.
  rewrite key_suffix_eq. simpl.
  split; [intros H; f_equal; now rewrite H | intros H; injection H as H].
  apply append_inj_r in H. exact H.
Qed.

Lemma keys_and_path_agree_witness :
  let upper :=
    {| env := "d"; redisNamespace := "img-server"; dir := "a"; file := "b";
       ext := "JPG"; mime := "image/jpeg";
       options := {| action := Some "resize"; width := Some (VNum 100);
                     height := Some (VNum 50); cropX := None;
                     cropY := None |};
       json := false; uuid := "187ef4436122d1cc2f40dc2b92f0eba0";
       tmpFile := "/tmp/9e07" |} in
  (_lockKey upper = _lockKey sample_img
   <-> _versionKey upper = _versionKey sample_img)
  /\ (_versionKey upper = _versionKey sample_img
      <-> s3Path upper = s3Path sample_img).
Proof.
  intros upper.
  destruct (keys_and_path_agree upper sample_img eq_refl eq_refl)
    as (H1 & H2).
  exact (conj H1 (H2 eq_refl)).
Defined.

(** X20.  The keys see the directory and the file name only through their
    concatenation.  Two requests whose directory and file name concatenate
    to the same string, with the same options and JSON flag, get the same
    version key, lock key and key of the original, and, with extensions
    equal up to case, the same S3 path for the version, even when the
    originals are different objects. *)
Theorem keys_depend_on_concatenation (md5 : string -> string)
  (tmp1 tmp2 : string) (penv : processEnv) (p1 p2 : parsedRequest) :
  (parsed_dir p1 ++ parsed_filename p1
   = parsed_dir p2 ++ parsed_filename p2)%string ->
  parsed_options p1 = parsed_options p2 ->
  parsed_json p1 = parsed_json p2 ->
  let i1 := new_Img md5 tmp1 penv p1 in
  let i2 := new_Img md5 tmp2 penv p2 in
  _versionKey i1 = _versionKey i2
  /\ _lockKey i1 = _lockKey i2
  /\ _origKey i1 = _origKey i2
  /\ (toLowerCase (parsed_ext p1) = toLowerCase (parsed_ext p2) ->
      s3Path i1 = s3Path i2).
Proof.
  intros Hc Ho Hj.
  unfold _versionKey, _lockKey, _origKey, _key, s3Path, filename,
    _optionsString.
  cbn [new_Img env redisNamespace uuid options json ext append].
  rewrite Hc, Ho, Hj. repeat split. intros ->. reflexivity.
Qed.

Lemma keys_depend_on_concatenation_witness :
  let penv := {| NODE_ENV := None; REDIS_NAMESPACE := None |} in
  let none := {| action := None; width := None; height := None;
                 cropX := None; cropY := None |} in
  let p1 := {| parsed_dir := "a"; parsed_filename := "bc";
               parsed_ext := "jpg"; parsed_options := none;
               parsed_json := false |} in
  let p2 := {| parsed_dir := "ab"; parsed_filename := "c";
               parsed_ext := "jpg"; parsed_options := none;
               parsed_json := false |} in
  let md5 := fun s : string => s in
  _versionKey (new_Img md5 "/tmp/1" penv p1)
  = _versionKey (new_Img md5 "/tmp/2" penv p2)
  /\ originalS3Path (new_Img md5 "/tmp/1" penv p1)
     <> originalS3Path (new_Img md5 "/tmp/2" penv p2).
Proof.
  intros penv none p1 p2 md5. split.
  - exact (proj1 (keys_depend_on_concatenation md5 "/tmp/1" "/tmp/2" penv
                    p1 p2 eq_refl eq_refl eq_refl)).
  - discriminate.
Defined.

End KeysAndPaths.

(* ================================================================== *)
(** * Further properties of the build and of the version cache *)
(* ================================================================== *)

Section BuildOperations.

Import Persist Image.
Open Scope list_scope.

Ltac unfold_chain :=
  unfold run, generateVersion, findVersion, flushKeys, processVersion,
    removal_lands, removal_done, persist_del_call,
    s3_getFile, persist_del, persist_setLock, persist_get, manipulate,
    s3_upload, save, persist_set, p_catch, p_finally, p_then, p_done, bind,
    ret, emit, on_store, deferred_reject, deferred_resolve, throw_uncaught,
    new_world, Persist.del, Persist.set, Persist.get, keys_of.

Ltac eval_world :=
  cbn -[_lockKey _versionKey _key originalS3Path s3Path stringify_m
        remove_in update_upsert removed_count app findOne In].

Lemma findOne_update_upsert_same (k : string) (v : JS.value)
  (c : collection) :
  exists d, findOne k (update_upsert k v c) = Some d /\ value d = v.
Proof.
  unfold update_upsert.
  destruct (update_first k v c) as [c'|] eqn:E.
  - exact (proj1 (update_first_found k v c c' E)).
  - apply update_first_none in E.
    rewrite (findOne_inserted k v c E). eexists; split; reflexivity.
Qed.

(** The outcomes of [processVersion], case by case. *)
Lemma processVersion_cases (o : oracle) (img : Img) (c : collection) :
  let w := run (processVersion o img) c in
  let record :=
    PersistSet (_versionKey img) (VStr (stringify_m (mime img))) in
  (result w = Some (Fulfilled VImg)
   <-> exists res m u,
         getFile_outcome o = Fulfilled res /\ has_properties res = true
         /\ manipulate_outcome o = Fulfilled m
         /\ upload_outcome o = Fulfilled u /\ truthy u = true)
  /\ (In record (effects w) <-> result w = Some (Fulfilled VImg))
  /\ (forall x, result w = Some (Fulfilled x) -> x = VImg)
  /\ (result w = Some (Fulfilled VImg) ->
      store w
      = fst (set (update_err o) (_versionKey img)
               (VStr (stringify_m (mime img)))
               (fst (del (remove_err o) (OneKey (_lockKey img)) c)))).
Proof.
  pose proof (versionKey_neq_lockKey img) as Hne.
  unfold effects. unfold_chain.
  destruct (remove_lands o) as [|[|[|n]]];
  destruct (remove_err o), (update_err o);
  (destruct (getFile_outcome o) as [res|err] eqn:Eg;
   [destruct (has_properties res) eqn:Hp;
    [destruct (manipulate_outcome o) as [m|m] eqn:Em;
     [destruct (upload_outcome o) as [u|u] eqn:Eu|]|]|]);
  eval_world;
  try match goal with
      | |- context [truthy ?u] => destruct (truthy u) eqn:Et; eval_world
      end;
  rewrite ?remove_in_idem,
    ?(remove_in_update_upsert (_lockKey img) _ _ (_versionKey img) Hne),
    ?remove_in_idem;
  (split;
   [split;
    [intros H;
     first [discriminate H | do 3 eexists; repeat split; eassumption]
    | intros (r' & m' & u' & H1 & H2 & H3 & H4 & H5);
      try reflexivity; congruence]|]);
  (split;
   [split;
    [intros H; simpl in H; intuition (try discriminate; try reflexivity)
    | intros H; first [discriminate H | simpl; tauto ]] |]);
  (split;
   [intros x H; first [discriminate H | injection H as <-; reflexivity] |]);
  intros H; first [discriminate H | reflexivity].
Qed.

(** X13.  [processVersion] resolves the caller's deferred exactly when the
    fetch yields a response, the transform succeeds and the upload
    resolves with a truthy result; it then resolves with the image and
    with nothing else, and the version record is written exactly in that
    case: a build that fails never marks the version as generated. *)
Theorem processVersion_resolves_iff_uploaded (o : oracle) (img : Img)
  (c : collection) :
  let w := run (processVersion o img) c in
  (result w = Some (Fulfilled VImg)
   <-> exists res m u,
         getFile_outcome o = Fulfilled res /\ has_properties res = true
         /\ manipulate_outcome o = Fulfilled m
         /\ upload_outcome o = Fulfilled u /\ truthy u = true)
  /\ (In (PersistSet (_versionKey img) (VStr (stringify_m (mime img))))
         (effects w)
      <-> result w = Some (Fulfilled VImg))
  /\ (forall x, result w = Some (Fulfilled x) -> x = VImg).
Proof.
  destruct (processVersion_cases o img c) as (H1 & H2 & H3 & _).
  exact (conj H1 (conj H2 H3)).
Qed.

Lemma processVersion_resolves_iff_uploaded_witness :
  result (run (processVersion
                 (answers 1000 (Fulfilled (VResponse 200))
                    (Fulfilled VUndefined) (Fulfilled (VResponse 200)))
                 sample_img) [])
  = Some (Fulfilled VImg).
Proof.
  apply (proj2 (proj1 (processVersion_resolves_iff_uploaded
                         (answers 1000 (Fulfilled (VResponse 200))
                            (Fulfilled VUndefined)
                            (Fulfilled (VResponse 200)))
                         sample_img []))).
  exists (VResponse 200), VUndefined, (VResponse 200).
  repeat split.
Defined.

(** X14.  A build that resolves leaves a version record that the cache
    lookups find (given that its write met no driver error): [get] reads
    the JSON with the mime type, [findVersion] resolves with [true], and
    a [generateVersion] whose lock resolved does the same with one read
    and nothing else. *)
Theorem build_then_findVersion (o o' : oracle) (img : Img)
  (c : collection) (msg : JS.value) :
  result (run (processVersion o img) c) = Some (Fulfilled VImg) ->
  update_err o = None ->
  get_err o' = None ->
  let built := store (run (processVersion o img) c) in
  get None (_versionKey img) built
  = Fulfilled (VStr (stringify_m (mime img)))
  /\ result (run (findVersion o' img) built) = Some (Fulfilled (VBool true))
  /\ run (generateVersion o' img (Fulfilled msg)) built
     = mkWorld built (Some (Fulfilled (VBool true)))
               [(PersistGet (_versionKey img), built)] [].
Proof.
  intros Hres Hu Hg built.
  pose proof (proj2 (proj2 (proj2 (processVersion_cases o img c))) Hres)
    as Hs.
  fold built in Hs. rewrite Hu in Hs. cbn [set fst] in Hs.
  destruct (findOne_update_upsert_same (_versionKey img)
              (VStr (stringify_m (mime img)))
              (fst (del (remove_err o) (OneKey (_lockKey img)) c)))
    as (d & Hd & Hv).
  rewrite <- Hs in Hd.
  split; [|split].
  - unfold get. rewrite Hd, Hv. reflexivity.
  - unfold_chain. rewrite Hg. eval_world. rewrite Hd. eval_world.
    rewrite Hv. reflexivity.
  - unfold_chain. rewrite Hg. eval_world. rewrite Hd. eval_world.
    rewrite Hv. reflexivity.
Qed.

Lemma build_then_findVersion_witness :
  let o := answers 1000 (Fulfilled (VResponse 200)) (Fulfilled VUndefined)
             (Fulfilled (VResponse 200)) in
  result (run (findVersion o sample_img)
            (store (run (processVersion o sample_img) [])))
  = Some (Fulfilled (VBool true)).
Proof.
  exact (proj1 (proj2 (build_then_findVersion
                         (answers 1000 (Fulfilled (VResponse 200))
                            (Fulfilled VUndefined)
                            (Fulfilled (VResponse 200)))
                         (answers 1000 (Fulfilled (VResponse 200))
                            (Fulfilled VUndefined)
                            (Fulfilled (VResponse 200)))
                         sample_img [] VUndefined
                         eq_refl eq_refl eq_refl))).
Defined.

(** After a rejection of [lock] that carries a value with properties,
    [generateVersion] is [setLock] followed by [processVersion] under
    [done]. *)
Lemma generateVersion_rejected (o : oracle) (img : Img) (c : collection)
  (e : JS.value) :
  has_properties e = true ->
  let claimed :=
    setLock (now o) (findOne_err o) (insert_err o) (_lockKey img) c in
  run (generateVersion o img (Rejected e)) c
  = snd (p_done (snd claimed) (fun _ => processVersion o img)
           (mkWorld (fst claimed) None
              [(PersistSetnx (_lockKey img) (VNum (now o + _waitTimeout)),
                c)] [])).
Proof.
  intros He. cbv zeta.
  unfold run, generateVersion, persist_setLock, p_then, p_catch, bind, ret,
    emit, on_store, new_world.
  rewrite He.
  cbn [store result trace uncaught app fst snd].
  destruct (setLock (now o) (findOne_err o) (insert_err o) (_lockKey img) c)
    as [c' p].
  cbn [fst snd].
  destruct (p_done p (fun _ => processVersion o img) _); reflexivity.
Qed.

Lemma after_release_effects (rest : list (effect * collection))
  (P : effect * collection -> Prop) :
  Forall (fun es => after_release (fst es) /\ P es) rest ->
  Forall after_release (map fst rest).
Proof.
  induction 1 as [|es r [He _] _ IH]; simpl; constructor; assumption.
Qed.

(** X15.  [generateVersion] does not look at the version record on the
    building path.  On a collection without a row under the lock key,
    whether or not it holds the version record, [lock] rejects with
    [no lock], and [generateVersion] then claims the lock, fetches the
    original and releases the lock, followed only by transform, upload
    and the write of the record: it never reads the version key. *)
Theorem generateVersion_without_lock_rebuilds (o : oracle) (img : Img)
  (c : collection) (t1 t2 : Z) :
  findOne (_lockKey img) c = None ->
  findOne_err o = None ->
  insert_err o = None ->
  let w := run (generateVersion o img (Rejected (VStr "no lock"))) c in
  option_map promise (lock [FirstRead (get None (_lockKey img) c) t1 t2])
  = Some (Some (Rejected (VStr "no lock")))
  /\ (exists rest,
        effects w
        = PersistSetnx (_lockKey img) (VNum (now o + _waitTimeout))
          :: GetFile (originalS3Path img)
          :: PersistDel (OneKey (_lockKey img)) :: rest
        /\ Forall after_release rest)
  /\ ~ In (PersistGet (_versionKey img)) (effects w).
Proof.
  intros Hf He Hi w.
  split.
  { unfold get. rewrite Hf. reflexivity. }
  assert (Hw : exists rest,
             effects w
             = PersistSetnx (_lockKey img) (VNum (now o + _waitTimeout))
               :: GetFile (originalS3Path img)
               :: PersistDel (OneKey (_lockKey img)) :: rest
             /\ Forall after_release rest).
  { unfold w.
    rewrite (generateVersion_rejected o img c (VStr "no lock") eq_refl).
    unfold setLock, setnx. rewrite He, Hf, Hi. cbn [insert fst snd p_done].
    match goal with
    | |- context [processVersion o img ?w0] =>
        destruct (processVersion_shape o img w0) as (rest & Ht & Hr & _)
    end.
    unfold effects. rewrite Ht. cbn [trace app map fst].
    exists (map fst rest). split; [reflexivity|].
    exact (after_release_effects _ _ Hr). }
  split; [exact Hw|].
  destruct Hw as (rest & -> & Hr). intros Hin.
  destruct Hin as [H|[H|[H|Hin]]]; try discriminate H.
  rewrite Forall_forall in Hr. exact (Hr _ Hin).
Qed.

Lemma generateVersion_without_lock_rebuilds_witness :
  let o := answers 1000 (Fulfilled (VResponse 200)) (Fulfilled VUndefined)
             (Fulfilled (VResponse 200)) in
  let cached :=
    [{| key := _versionKey sample_img;
        value := VStr (stringify_m "image/jpeg") |}] in
  ~ In (PersistGet (_versionKey sample_img))
       (effects (run (generateVersion o sample_img
                        (Rejected (VStr "no lock"))) cached)).
Proof.
  exact (proj2 (proj2 (generateVersion_without_lock_rebuilds
                         (answers 1000 (Fulfilled (VResponse 200))
                            (Fulfilled VUndefined)
                            (Fulfilled (VResponse 200)))
                         sample_img
                         [{| key := _versionKey sample_img;
                             value := VStr (stringify_m "image/jpeg") |}]
                         1000 1000 eq_refl eq_refl eq_refl))).
Defined.

Lemma generateVersion_after_lock_read (o : oracle) (img : Img)
  (c : collection) (msg : JS.value) :
  store (run (generateVersion o img (Fulfilled msg)) c) = c.
Proof.
  unfold_chain. destruct (get_err o); eval_world; [reflexivity|].
  destruct (findOne (_versionKey img) c); reflexivity.
Qed.

(** X16.  When [lock] resolved, [generateVersion] only reads the version
    key, whatever message the lock resolved with.  It resolves with
    [false] when the key has no row (or a null value) and with [true]
    otherwise; on a store error it rejects with an Error that wraps it,
    and the [resolve] that the callback of [done] still performs has no
    effect.  It builds nothing and writes nothing. *)
Theorem generateVersion_after_lock_resolved (o : oracle) (img : Img)
  (c : collection) (msg : JS.value) :
  run (generateVersion o img (Fulfilled msg)) c
  = mkWorld c
      (Some match get_err o with
            | Some e => Rejected (VError e)
            | None =>
                Fulfilled
                  (VBool match findOne (_versionKey img) c with
                         | Some d => strict_neq_null (value d)
                         | None => false
                         end)
            end)
      [(PersistGet (_versionKey img), c)] [].
Proof.
  unfold_chain. destruct (get_err o); eval_world; [reflexivity|].
  destruct (findOne (_versionKey img) c); reflexivity.
Qed.

(** X17.  [flushKeys] removes the version record and the parameters of
    the original and nothing else: afterwards [get] finds neither key,
    [findVersion] resolves with [false], every other key reads as before
    (for an image built by the constructor the lock key is among them,
    so a flush does not release a lock), and the call resolves.  On a
    driver error it rejects with that error and the collection is
    unchanged. *)
Theorem flushKeys_removes_version_and_original (o o' : oracle) (img : Img)
  (c : collection) :
  let w := run (flushKeys o img) c in
  (remove_err o = None ->
   get None (_versionKey img) (store w) = Fulfilled VNull
   /\ get None (_origKey img) (store w) = Fulfilled VNull
   /\ (forall k, k <> _versionKey img -> k <> _origKey img ->
         get None k (store w) = get None k c)
   /\ (forall md5 tmp penv parsed,
         img = new_Img md5 tmp penv parsed ->
         get None (_lockKey img) (store w) = get None (_lockKey img) c)
   /\ (get_err o' = None ->
       result (run (findVersion o' img) (store w))
       = Some (Fulfilled (VBool false)))
   /\ exists x, result w = Some (Fulfilled x))
  /\ (forall e, remove_err o = Some e ->
        store w = c /\ result w = Some (Rejected e)).
Proof.
  cbv zeta. split.
  - intros Hr.
    assert (Hs : store (run (flushKeys o img) c)
                 = remove_in [_versionKey img; _origKey img] c
                 /\ result (run (flushKeys o img) c)
                    = Some (Fulfilled
                              (VNum (removed_count
                                       [_versionKey img; _origKey img] c)))).
    { unfold_chain. rewrite Hr. eval_world. split; reflexivity. }
    destruct Hs as [Hs Hres]. rewrite Hs, Hres. unfold get.
    rewrite (findOne_remove_in_listed (_versionKey img)); [|left; reflexivity].
    rewrite (findOne_remove_in_listed (_origKey img));
      [|right; left; reflexivity].
    split; [reflexivity|]. split; [reflexivity|]. split; [|split; [|split]].
    + intros k H1 H2. rewrite findOne_remove_in_other; [reflexivity|].
      intros [H|[H|[]]]; congruence.
    + intros md5 tmp penv parsed Himg.
      rewrite findOne_remove_in_other; [reflexivity|].
      intros [H|[H|[]]].
      * exact (versionKey_neq_lockKey img H).
      * rewrite Himg in H. exact (origKey_neq_lockKey _ _ _ _ H).
    + intros Hg. unfold_chain. rewrite Hg. eval_world.
      rewrite (findOne_remove_in_listed (_versionKey img));
        [reflexivity | left; reflexivity].
    + eexists. reflexivity.
  - intros e Hr. unfold_chain. rewrite Hr. eval_world. split; reflexivity.
Qed.

Lemma flushKeys_removes_version_and_original_witness :
  let o := answers 1000 (Fulfilled (VResponse 200)) (Fulfilled VUndefined)
             (Fulfilled (VResponse 200)) in
  let c := [{| key := _versionKey sample_img;
               value := VStr (stringify_m "image/jpeg") |};
            {| key := _lockKey sample_img; value := VNum 3000 |}] in
  get None (_versionKey sample_img) (store (run (flushKeys o sample_img) c))
  = Fulfilled VNull
  /\ get None (_lockKey sample_img) (store (run (flushKeys o sample_img) c))
     = get None (_lockKey sample_img) c.
Proof.
  intros o c.
  destruct (proj1 (flushKeys_removes_version_and_original o o sample_img c)
              eq_refl) as (H1 & _ & _ & H4 & _).
  split; [exact H1|].
  exact (H4 (fun _ => "187ef4436122d1cc2f40dc2b92f0eba0") "/tmp/5c1f"
            {| NODE_ENV := None; REDIS_NAMESPACE := None |}
            {| parsed_dir := "a"; parsed_filename := "b";
               parsed_ext := "jpg";
               parsed_options :=
                 {| action := Some "resize"; width := Some (VNum 100);
                    height := Some (VNum 50); cropX := None;
                    cropY := None |};
               parsed_json := false |} eq_refl).
Defined.

Lemma setLock_other_key (t : Z) (e1 e2 : option JS.value) (k k' : string)
  (c : collection) :
  k' <> k ->
  findOne k' (fst (setLock t e1 e2 k c)) = findOne k' c.
Proof.
  intros Hne. unfold setLock, setnx.
  destruct e1; [reflexivity|].
  destruct (findOne k c); [reflexivity|].
  destruct e2; [reflexivity|]. cbn [insert fst].
  rewrite findOne_app. destruct (findOne k' c); [reflexivity|].
  unfold has_key; simpl.
  destruct (String.eqb_spec k k'); [congruence | reflexivity].
Qed.

(** X18.  A request touches two keys only.  Whatever [lock] settled with
    and whatever the collaborators answer, after [generateVersion] every
    key other than the lock key and the version key of the image reads as
    it did before: the records of other versions, the parameters of
    originals and the locks of other requests are left alone. *)
Theorem generateVersion_touches_two_keys (o : oracle) (img : Img)
  (lockp : settled) (c : collection) (k : string) :
  k <> _lockKey img ->
  k <> _versionKey img ->
  get None k (store (run (generateVersion o img lockp) c)) = get None k c.
Proof.
  intros Hl Hv. unfold get.
  assert (H : findOne k (store (run (generateVersion o img lockp) c))
              = findOne k c); [|now rewrite H].
  destruct lockp as [msg|e].
  - rewrite generateVersion_after_lock_read. reflexivity.
  - destruct (has_properties e) eqn:He.
    + rewrite (generateVersion_rejected o img c e He).
      pose proof (setLock_other_key (now o) (findOne_err o) (insert_err o)
                    (_lockKey img) k c Hl) as Hset.
      destruct (setLock (now o) (findOne_err o) (insert_err o)
                  (_lockKey img) c) as [c1 p].
      cbn [fst snd] in *.
      destruct p as [x|y]; cbn [p_done].
      * match goal with
        | |- context [processVersion o img ?w0] =>
            destruct (processVersion_shape o img w0) as (rest & _ & _ & Hs & _)
        end.
        cbn [store] in Hs.
        assert (Hrel : findOne k
                         (fst (del (remove_err o) (OneKey (_lockKey img)) c1))
                       = findOne k c).
        { unfold del. destruct (remove_err o); cbn [fst keys_of];
            [exact Hset|].
          rewrite findOne_remove_in_other; [exact Hset|].
          intros [E|[]]. congruence. }
        destruct Hs as [-> | ->]; [exact Hrel|].
        unfold set. destruct (update_err o); cbn [fst]; [exact Hrel|].
        rewrite findOne_update_upsert_other; [exact Hrel | congruence].
      * exact Hset.
    + unfold run, generateVersion, p_then, p_catch, bind, ret, new_world.
      rewrite He. exact eq_refl.
Qed.

Lemma generateVersion_touches_two_keys_witness :
  let o := answers 1000 (Fulfilled (VResponse 200)) (Fulfilled VUndefined)
             (Fulfilled (VResponse 200)) in
  let c := [{| key := _origKey sample_img; value := VStr "{}" |}] in
  get None (_origKey sample_img)
    (store (run (generateVersion o sample_img (Rejected (VStr "no lock"))) c))
  = get None (_origKey sample_img) c.
Proof.
  intros o c.
  apply (generateVersion_touches_two_keys o sample_img
           (Rejected (VStr "no lock")) c (_origKey sample_img));
    discriminate.
Defined.

(** X19.  [_isAnimatedGif] answers [true] only for data whose format is
    gif up to case and whose Scene is not null; it does not depend on the
    case of the format; and for a gif whose data has no Scene at all
    (undefined) it answers [true]. *)
Theorem isAnimatedGif_only_for_gif :
  (forall info,
     _isAnimatedGif info = Some true ->
     exists f, format info = VStr f /\ toLowerCase f = "gif"%string
               /\ Scene info <> VNull)
  /\ (forall f sc,
        _isAnimatedGif {| format := VStr (toLowerCase f); Scene := sc |}
        = _isAnimatedGif {| format := VStr f; Scene := sc |})
  /\ (forall f,
        toLowerCase f = "gif"%string ->
        _isAnimatedGif {| format := VStr f; Scene := VUndefined |}
        = Some true).
Proof.
  split; [|split].
  - intros info. unfold _isAnimatedGif.
    destruct (format info) as [| |b|n|f|k v|sc| |m]; try discriminate.
    destruct (String.eqb_spec (toLowerCase f) "gif") as [E|E];
      simpl; [|discriminate].
    intros H. exists f. repeat split; [exact E|].
    intros Hs. rewrite Hs in H. discriminate H.
  - intros f sc. unfold _isAnimatedGif. cbn [format Scene].
    rewrite toLowerCase_idem. reflexivity.
  - intros f H. unfold _isAnimatedGif. cbn [format Scene].
    rewrite H. reflexivity.
Qed.

Lemma isAnimatedGif_only_for_gif_witness :
  _isAnimatedGif {| format := VStr "GIF"; Scene := VUndefined |} = Some true.
Proof.
  exact (proj2 (proj2 isAnimatedGif_only_for_gif) "GIF" eq_refl).
Defined.

End BuildOperations.
